(** * cachesim.c: a set-associative LRU cache simulator

  A shallow embedding of [read_file] and [main] of cachesim.c, and the
  properties of the simulator proved over it.

  Conventions of the embedding.
  - [unsigned long long] values are integers in [0, 2^64); the only
    arithmetic on them that can leave the range is [global_timer++],
    whose wrap-around is written out.
  - [int] expressions whose result C99 leaves undefined (a shift by a
    negative or too large count, a shift or sum that leaves the range
    of [int]) evaluate to [None]; so do array accesses outside the
    allocated lines.  A run is an [option]: [None] is undefined
    behaviour.
  - The statistics counters [hit_count], [miss_count], [eviction_count]
    are [int]s that are only ever incremented.  [read_file] counts the
    hits, misses and evictions in [Z]; [read_file_int] is the run with
    the C variables, undefined from the line on which a [++] finds its
    counter at [INT_MAX].  [counters_bounded] shows that after [n] trace
    lines no count exceeds [2 * n], so the two runs agree on every
    trace of less than 2^30 lines.
  - A cache set is the list of its lines in slot order, and
    [for (i = 0; i < E; i++)] over [currentSet] is recursion over that
    list: [main] allocates exactly [E] lines per set. *)

From Stdlib Require Import ZArith Ascii String Lia.
From stdpp Require Import base option list.

Local Open Scope Z_scope.

(** ** Machine integers *)

Module Mach.

Definition INT_MAX : Z := 2 ^ 31 - 1.
Definition INT_MIN : Z := - 2 ^ 31.
Definition ULL_MOD : Z := 2 ^ 64.

Definition in_int (z : Z) : bool := (INT_MIN <=? z) && (z <=? INT_MAX).

(** [x + y] and [x - y] on [int]. *)
Definition int_add (x y : Z) : option Z :=
  if in_int (x + y) then Some (x + y) else None.

Definition int_sub (x y : Z) : option Z :=
  if in_int (x - y) then Some (x - y) else None.

(** [x << n] on [int] (C99 6.5.7): defined when [x] is non-negative, the
    count is in [0, 32) and [x * 2^n] is representable. *)
Definition int_shl (x n : Z) : option Z :=
  if (0 <=? x) && (0 <=? n) && (n <? 32) && (x * 2 ^ n <=? INT_MAX)
  then Some (Z.shiftl x n) else None.

(** [a >> n] on [unsigned long long]: defined for a count in [0, 64). *)
Definition ull_shr (a n : Z) : option Z :=
  if (0 <=? n) && (n <? 64) then Some (Z.shiftr a n) else None.

(** Conversion of an [int] operand to [unsigned long long]. *)
Definition ull_of_int (x : Z) : Z := x mod ULL_MOD.

(** [t++] on [unsigned long long]. *)
Definition ull_incr (t : Z) : Z := (t + 1) mod ULL_MOD.

End Mach.

Import Mach.

(** ** Data *)

(** [struct cache_line]. *)
Record cache_line := CacheLine {
  valid_bit : Z;
  lru : Z;
  tag : Z
}.

(** One parsed line of the trace: what [sscanf] stores. *)
Record trace_line := TraceLine {
  instruct : ascii;
  address : Z;
  size : Z
}.

(** The global counters and the timer. *)
Record globals := Globals {
  miss_count : Z;
  hit_count : Z;
  eviction_count : Z;
  global_timer : Z
}.

(** The cache is the array of its sets; the simulator's state is the cache
    with the globals. *)
Abbreviation cache_t := (list (list cache_line)).

Abbreviation state := (cache_t * globals)%type.

(** [hit_count++], [miss_count++] and [eviction_count++] as counts of
    events, in [Z]; [process_line_int] below adds that the [int] variables
    must be able to hold them. *)
Definition incr_hit (g : globals) : globals :=
  Globals (miss_count g) (hit_count g + 1) (eviction_count g) (global_timer g).

Definition incr_miss (g : globals) : globals :=
  Globals (miss_count g + 1) (hit_count g) (eviction_count g) (global_timer g).

Definition incr_eviction (g : globals) : globals :=
  Globals (miss_count g) (hit_count g) (eviction_count g + 1) (global_timer g).

Definition tick (g : globals) : globals :=
  Globals (miss_count g) (hit_count g) (eviction_count g)
          (ull_incr (global_timer g)).

(** ** Address decoding (cachesim.c lines 71-72) *)

(** [tag = address >> (b + s)] and
    [index = (address >> b) & ((1 << s) - 1)]; [b + s], [1 << s] and the
    subtraction are [int] arithmetic. *)
Definition decode (s b : Z) (addr : Z) : option (Z * Z) :=
  bs ← int_add b s;
  t ← ull_shr addr bs;
  hi ← ull_shr addr b;
  one_s ← int_shl 1 s;
  mask ← int_sub one_s 1;
  Some (t, Z.land hi (ull_of_int mask)).

(** ** The passes over one set *)

(** Line 88: [currentSet[i].lru = global_timer]. *)
Definition touch (timer : Z) (l : cache_line) : cache_line :=
  CacheLine (valid_bit l) timer (tag l).

(** Lines 95-96: [valid_bit = 1; lru = global_timer]. *)
Definition revalidate (timer : Z) (l : cache_line) : cache_line :=
  CacheLine 1 timer (tag l).

(** Lines 105-107 and 123-125: [tag = tag; valid_bit = 1; lru = global_timer]. *)
Definition install (t timer : Z) : cache_line :=
  CacheLine 1 timer t.

(** Lines 82-98: the first loop.  The first line holding the tag is a hit
    when valid and is made valid (a miss) otherwise. *)
Fixpoint lookup_pass (t : Z) (currentSet : list cache_line)
    (if_dealt_with : Z) (g : globals) : list cache_line * Z * globals :=
  match currentSet with
  | [] => ([], if_dealt_with, g)
  | l :: rest =>
    if (t =? tag l) && (valid_bit l =? 1) && (if_dealt_with =? 0) then
      let '(rest', d, g') :=
        lookup_pass t rest (if_dealt_with + 1) (incr_hit g) in
      (touch (global_timer g) l :: rest', d, g')
    else if (t =? tag l) && negb (valid_bit l =? 1) && (if_dealt_with =? 0) then
      let '(rest', d, g') :=
        lookup_pass t rest (if_dealt_with + 1) (incr_miss g) in
      (revalidate (global_timer g) l :: rest', d, g')
    else
      let '(rest', d, g') := lookup_pass t rest if_dealt_with g in
      (l :: rest', d, g')
  end.

(** Lines 102-110: the first line with [lru == 0] takes the block. *)
Fixpoint fill_pass (t : Z) (currentSet : list cache_line)
    (if_dealt_with : Z) (g : globals) : list cache_line * Z * globals :=
  match currentSet with
  | [] => ([], if_dealt_with, g)
  | l :: rest =>
    if (lru l =? 0) && (if_dealt_with =? 0) then
      let '(rest', d, g') :=
        fill_pass t rest (if_dealt_with + 1) (incr_miss g) in
      (install t (global_timer g) :: rest', d, g')
    else
      let '(rest', d, g') := fill_pass t rest if_dealt_with g in
      (l :: rest', d, g')
  end.

(** Lines 116-121: [min_index] after the loop over [i = 1 .. E-1];
    [rest] are the lines from slot [i] on. *)
Fixpoint min_index_loop (currentSet rest : list cache_line)
    (i min_index : nat) : option nat :=
  match rest with
  | [] => Some min_index
  | l :: rest' =>
    m ← currentSet !! min_index;
    min_index_loop currentSet rest' (S i)
      (if lru l <? lru m then i else min_index)
  end.

Definition find_min_index (currentSet : list cache_line) : option nat :=
  min_index_loop currentSet (tail currentSet) 1%nat 0%nat.

(** Lines 114-126: the eviction.  Writing [currentSet[min_index]] needs the
    slot to exist. *)
Definition evict (t : Z) (currentSet : list cache_line) (g : globals)
    : option (list cache_line * globals) :=
  let g1 := incr_miss g in
  min_index ← find_min_index currentSet;
  let g2 := incr_eviction g1 in
  _ ← currentSet !! min_index;
  Some (<[min_index := install t (global_timer g2)]> currentSet, g2).

(** Lines 133-139: the second lookup of a modify. *)
Fixpoint modify_pass (t : Z) (currentSet : list cache_line)
    (if_dealt_with : Z) (g : globals) : list cache_line * Z * globals :=
  match currentSet with
  | [] => ([], if_dealt_with, g)
  | l :: rest =>
    if (t =? tag l) && (valid_bit l =? 1) && (if_dealt_with =? 0) then
      let '(rest', d, g') :=
        modify_pass t rest (if_dealt_with + 1) (incr_hit g) in
      (touch (global_timer g) l :: rest', d, g')
    else
      let '(rest', d, g') := modify_pass t rest if_dealt_with g in
      (l :: rest', d, g')
  end.

(** ** One trace line (the body of the [while] loop, lines 63-140) *)

Definition is_data (c : ascii) : bool :=
  Ascii.eqb c "L" || Ascii.eqb c "S" || Ascii.eqb c "M".

(** Lines 77-127 on the set [cache[index]]. *)
Definition data_access (t : Z) (currentSet : list cache_line) (g : globals)
    : option (list cache_line * globals) :=
  let '(set1, d1, g1) := lookup_pass t currentSet 0 g in
  let '(set2, d2, g2) :=
    if d1 =? 0 then fill_pass t set1 d1 g1 else (set1, d1, g1) in
  if d2 =? 0 then evict t set2 g2 else Some (set2, g2).

(** Lines 77-127 on the cache: the set [cache[index]] is updated in place. *)
Definition first_lookup (t index : Z) (cache : cache_t) (g : globals)
    : option state :=
  currentSet ← cache !! Z.to_nat index;
  '(set', g') ← data_access t currentSet g;
  Some (<[Z.to_nat index := set']> cache, g').

(** Lines 130-140 on the cache. *)
Definition second_lookup (t index : Z) (st : state) : option state :=
  currentSet ← st.1 !! Z.to_nat index;
  let '(set', _, g') := modify_pass t currentSet 0 st.2 in
  Some (<[Z.to_nat index := set']> st.1, g').

(** The state after line 127: the address is decoded and the timer advanced
    for every line, whatever its instruction. *)
Definition first_part (s b : Z) (st : state) (r : trace_line)
    : option (Z * Z * state) :=
  '(t, index) ← decode s b (address r);
  let g := tick st.2 in
  st1 ← (if is_data (instruct r) then first_lookup t index st.1 g
         else Some (st.1, g));
  Some (t, index, st1).

Definition process_line (s b : Z) (st : state) (r : trace_line)
    : option state :=
  '(t, index, st1) ← first_part s b st r;
  if Ascii.eqb (instruct r) "M" then second_lookup t index st1
  else Some st1.

(** [read_file]: the lines of the trace in file order. *)
Fixpoint read_file (s b : Z) (trace : list trace_line) (st : state)
    : option state :=
  match trace with
  | [] => Some st
  | r :: trace' =>
    st' ← process_line s b st r;
    read_file s b trace' st'
  end.

(** ** The counters as C [int]s *)

(** The three counts are values of [int] variables. *)
Definition fits_int (g : globals) : bool :=
  (hit_count g <=? INT_MAX) && (miss_count g <=? INT_MAX)
  && (eviction_count g <=? INT_MAX).

(** One trace line with [int] counters.  [hit_count++], [miss_count++] and
    [eviction_count++] (lines 87, 94, 104, 115, 122, 136) are undefined on
    a counter that holds [INT_MAX].  A line only adds to the counters, one
    at a time, so one of its increments overflows exactly when a count is
    above [INT_MAX] after the line. *)
Definition process_line_int (s b : Z) (st : state) (r : trace_line)
    : option state :=
  st' ← process_line s b st r;
  if fits_int st'.2 then Some st' else None.

(** [read_file] with [int] counters. *)
Fixpoint read_file_int (s b : Z) (trace : list trace_line) (st : state)
    : option state :=
  match trace with
  | [] => Some st
  | r :: trace' =>
    st' ← process_line_int s b st r;
    read_file_int s b trace' st'
  end.

(** ** [main] *)

(** Lines 231-239: [S] sets of [E] lines, all fields zero. *)
Definition make_cache (S E : Z) : cache_t :=
  replicate (Z.to_nat S) (replicate (Z.to_nat E) (CacheLine 0 0 0)).

Definition init_globals : globals := Globals 0 0 0 0.

Definition init_state (S E : Z) : state := (make_cache S E, init_globals).

(** [(int) pow(2, n)]: the power is exact, below one for a negative [n]
    (truncated to 0), and its conversion is undefined from 2^31 on. *)
Definition pow2_int (n : Z) : option Z :=
  if n <? 0 then Some 0 else if n <=? 30 then Some (2 ^ n) else None.

Inductive outcome :=
| Usage (missing_argument : bool) (status : Z)
| Summary (hits misses evictions : Z)
| Undefined.

(** [printUsage] ends in [exit(0)]. *)
Definition printUsage (missing_argument : bool) : outcome :=
  Usage missing_argument 0.

(** [main] after option parsing: [s], [E], [b] as [atoi] left them (0 when
    the option is absent) and the lines of the trace file, [None] when
    [trace_file] is [NULL].  Line 211 sends a zero [s], [E] or [b] and a
    [NULL] [trace_file] to [printUsage], which exits: the [exit(1)] after it
    is not reached. *)
Definition main (s E b : Z) (trace_file : option (list trace_line))
    : outcome :=
  match (s =? 0) || (E =? 0) || (b =? 0), trace_file with
  | false, Some trace =>
    match pow2_int s, pow2_int b with
    | Some nsets, Some _ =>
      match read_file s b trace (init_state nsets E) with
      | Some (_, g) => Summary (hit_count g) (miss_count g) (eviction_count g)
      | None => Undefined
      end
    | _, _ => Undefined
    end
  | _, _ => printUsage true
  end.

(** ** The command line (main, lines 183-208) *)

(** The globals that the options set, with their initial values. *)
Module Opt.

Record t := Make {
  verbose : Z;
  s : Z;
  b : Z;
  E : Z;
  trace_file : option string
}.

Definition initial : t := Make 0 0 0 0 None.

End Opt.

(** The [while] loop over [getopt]: [results] are the option characters
    that the successive calls return, each with its [optarg], up to the
    call that returns -1; [atoi] is the library's.  Both [-h] and an
    option that [getopt] does not know end in [printUsage], which exits
    before the [exit] that follows it. *)
Fixpoint parse_options (atoi : string → Z) (results : list (ascii * string))
    (o : Opt.t) : Opt.t + outcome :=
  match results with
  | [] => inl o
  | (c, optarg) :: results' =>
    if Ascii.eqb c "s" then
      parse_options atoi results'
        (Opt.Make (Opt.verbose o) (atoi optarg) (Opt.b o) (Opt.E o)
                  (Opt.trace_file o))
    else if Ascii.eqb c "E" then
      parse_options atoi results'
        (Opt.Make (Opt.verbose o) (Opt.s o) (Opt.b o) (atoi optarg)
                  (Opt.trace_file o))
    else if Ascii.eqb c "b" then
      parse_options atoi results'
        (Opt.Make (Opt.verbose o) (Opt.s o) (atoi optarg) (Opt.E o)
                  (Opt.trace_file o))
    else if Ascii.eqb c "t" then
      parse_options atoi results'
        (Opt.Make (Opt.verbose o) (Opt.s o) (Opt.b o) (Opt.E o)
                  (Some optarg))
    else if Ascii.eqb c "v" then
      parse_options atoi results'
        (Opt.Make 1 (Opt.s o) (Opt.b o) (Opt.E o) (Opt.trace_file o))
    else if Ascii.eqb c "h" then inr (printUsage false)
    else inr (printUsage false)
  end.

(** [main] from the command line.  [fopen] gives the lines of a trace
    file, [None] when it cannot be opened: [read_file] then reports the
    error and goes on to call [fgets] on the null stream, so a run that
    gets as far as [read_file] is undefined. *)
Definition main_argv (atoi : string → Z)
    (fopen : string → option (list trace_line))
    (results : list (ascii * string)) : outcome :=
  match parse_options atoi results Opt.initial with
  | inr o => o
  | inl o =>
    match Opt.trace_file o with
    | None => main (Opt.s o) (Opt.E o) (Opt.b o) None
    | Some file =>
      match fopen file with
      | Some trace => main (Opt.s o) (Opt.E o) (Opt.b o) (Some trace)
      | None =>
        match main (Opt.s o) (Opt.E o) (Opt.b o) (Some []) with
        | Usage m status => Usage m status
        | _ => Undefined
        end
      end
    end
  end.

(** The option characters that set a global; [getopt] returns any other
    for [-h] and for what it does not accept. *)
Definition sets_global (c : ascii) : bool :=
  Ascii.eqb c "s" || Ascii.eqb c "E" || Ascii.eqb c "b" || Ascii.eqb c "t"
  || Ascii.eqb c "v".

(** ** Trace lines by instruction *)

(** A load, a store, a modify and an instruction fetch of one byte. *)
Definition L (a : Z) : trace_line := TraceLine "L" a 1.
Definition St (a : Z) : trace_line := TraceLine "S" a 1.
Definition M (a : Z) : trace_line := TraceLine "M" a 1.
Definition I (a : Z) : trace_line := TraceLine "I" a 1.

(** The arguments of [printSummary]: hits, misses, evictions. *)
Definition stats (o : option state) : option (Z * Z * Z) :=
  st ← o; Some (hit_count st.2, miss_count st.2, eviction_count st.2).

(** ** Vocabulary of the statements *)

(** Slot [m] holds the smallest [lru] of [lines], and is the first slot that
    does: every line before it has a strictly larger one. *)
Definition first_min (lines : list cache_line) (m : nat) : Prop :=
  ∃ lm, lines !! m = Some lm ∧
    ∀ j l, lines !! j = Some l →
      lru lm <= lru l ∧ ((j < m)%nat → lru lm < lru l).

(** How lines 77-127 deal with a tag: they find it valid, find it in an
    invalid line, put it in the first line with [lru == 0], or evict. *)
Inductive access_kind := Hit | Revalidated | Filled | Evicted.

Inductive accessed (t : Z) (lines : list cache_line)
    : access_kind → nat → Prop :=
| acc_hit i l :
    list_find (λ l, tag l = t) lines = Some (i, l) → valid_bit l = 1 →
    accessed t lines Hit i
| acc_revalidated i l :
    list_find (λ l, tag l = t) lines = Some (i, l) → valid_bit l ≠ 1 →
    accessed t lines Revalidated i
| acc_filled i l :
    list_find (λ l, tag l = t) lines = None →
    list_find (λ l, lru l = 0) lines = Some (i, l) →
    accessed t lines Filled i
| acc_evicted m :
    list_find (λ l, tag l = t) lines = None →
    list_find (λ l, lru l = 0) lines = None →
    first_min lines m →
    accessed t lines Evicted m.

Definition charge (k : access_kind) (g : globals) : globals :=
  match k with
  | Hit => incr_hit g
  | Revalidated | Filled => incr_miss g
  | Evicted => incr_eviction (incr_miss g)
  end.

(** The geometries on which every expression of [read_file] is defined:
    [1 << s] fits an [int], the shifts of the address are by less than 64,
    and a set has a line. *)
Definition geometry_ok (s b E : Z) : Prop :=
  0 <= s <= 30 ∧ 0 <= b ∧ b + s <= 63 ∧ 1 <= E.

(** A cache as [main] allocates it: [2^s] sets of [E] lines. *)
Definition wf_cache (s E : Z) (c : cache_t) : Prop :=
  length c = Z.to_nat (2 ^ s) ∧
  Forall (λ lines, Z.of_nat (length lines) = E) c.

(** What the second lookup of a modify adds to the counters. *)
Definition modify_credit (r : trace_line) (g : globals) : globals :=
  if Ascii.eqb (instruct r) "M" then incr_hit g else g.

(** One trace line, on a state where it is defined: a line that is not a
    load, store or modify only advances the timer; a data access puts its
    tag in one slot of its set and charges the counters. *)
Inductive step (s b : Z) (st : state) (r : trace_line) : state → Prop :=
| step_skip t idx :
    decode s b (address r) = Some (t, idx) →
    is_data (instruct r) = false →
    step s b st r (st.1, tick st.2)
| step_access t idx lines k i :
    decode s b (address r) = Some (t, idx) →
    is_data (instruct r) = true →
    st.1 !! Z.to_nat idx = Some lines →
    accessed t lines k i →
    step s b st r
      (<[Z.to_nat idx :=
           <[i := install t (ull_incr (global_timer st.2))]> lines]> st.1,
       modify_credit r (charge k (tick st.2))).

(** A line was never written ([valid_bit] and [lru] still 0) or is valid. *)
Definition line_free_or_valid (l : cache_line) : Prop :=
  valid_bit l = 1 ∨ (valid_bit l = 0 ∧ lru l = 0).

(** [lru == 0] marks exactly the lines that are not valid. *)
Definition sentinel_exact (l : cache_line) : Prop :=
  (valid_bit l = 1 ∧ lru l ≠ 0) ∨ (valid_bit l = 0 ∧ lru l = 0).

(** A tag that occurs twice in a set is not valid at its later slot. *)
Definition no_later_copy (lines : list cache_line) : Prop :=
  ∀ i j li lj, (i < j)%nat → lines !! i = Some li → lines !! j = Some lj →
    tag li = tag lj → valid_bit lj ≠ 1.

(** No two distinct valid lines of a set hold the same tag. *)
Definition no_duplicate_tags (lines : list cache_line) : Prop :=
  ∀ i j li lj, lines !! i = Some li → lines !! j = Some lj →
    valid_bit li = 1 → valid_bit lj = 1 → tag li = tag lj → i = j.

(** Lookups that a trace line performs: one for a load or a store, two
    for a modify, none for anything else. *)
Definition lookups (r : trace_line) : Z :=
  if Ascii.eqb (instruct r) "M" then 2
  else if is_data (instruct r) then 1 else 0.

Fixpoint count_instruct (c : ascii) (trace : list trace_line) : Z :=
  match trace with
  | [] => 0
  | r :: trace' =>
    (if Ascii.eqb (instruct r) c then 1 else 0) + count_instruct c trace'
  end.

(** The tag is in a valid line of the set. *)
Definition resident (t : Z) (lines : list cache_line) : bool :=
  existsb (λ l, (valid_bit l =? 1) && (tag l =? t)) lines.

(** Some line of the set has [lru == 0]. *)
Definition has_free_slot (lines : list cache_line) : bool :=
  existsb (λ l, lru l =? 0) lines.

(** A load of address 0, 2^64 - 2 instruction lines, and the load again. *)
Definition wrap_gap : nat := Z.to_nat (2 ^ 64 - 2).

Definition wrapping_trace : list trace_line :=
  [L 0] ++ replicate wrap_gap (I 0) ++ [L 0].

(** 2^30 modifies of one address: a miss and 2^31 - 1 hits. *)
Definition storm_gap : nat := Z.to_nat (2 ^ 30 - 1).

Definition modify_storm : list trace_line :=
  [M 0] ++ replicate storm_gap (M 0).

(** 2^31 - 1 loads that alternate between two blocks of one set of one
    line: every load is a miss and all but the first evict. *)
Definition thrash_pairs : nat := Z.to_nat (2 ^ 30 - 1).

Definition thrash : list trace_line :=
  [L 0] ++ concat (replicate thrash_pairs [L 8; L 0]).

(** ** States of a run and the history of a trace *)

(** The states reached from the cache [main] allocates, with the lines
    read so far. *)
Inductive reachable (s b E : Z) : list trace_line → state → Prop :=
| reach_init : reachable s b E [] (init_state (2 ^ s) E)
| reach_step pre st r st' :
    reachable s b E pre st → step s b st r st' →
    reachable s b E (pre ++ [r]) st'.

(** The trace line is a load, store or modify of the block [key]: its
    address decodes to that tag and set index. *)
Definition uses (s b : Z) (key : Z * Z) (r : trace_line) : bool :=
  is_data (instruct r) && bool_decide (decode s b (address r) = Some key).

(** The number (from 1) of the last line of the trace that uses the block,
    0 when none does. *)
Fixpoint last_use (s b : Z) (key : Z * Z) (trace : list trace_line) : nat :=
  match trace with
  | [] => 0
  | r :: trace' =>
    match last_use s b key trace' with
    | O => if uses s b key r then 1 else 0
    | S n => S (S n)
    end
  end.

(** The tags that the data lines of the trace bring to the set [idx], in
    file order, with repetitions. *)
Fixpoint tags_to_set (s b idx : Z) (trace : list trace_line) : list Z :=
  match trace with
  | [] => []
  | r :: trace' =>
    match decode s b (address r) with
    | Some (t, i) =>
      if is_data (instruct r) && (i =? idx)
      then t :: tags_to_set s b idx trace'
      else tags_to_set s b idx trace'
    | None => tags_to_set s b idx trace'
    end
  end.


(** The loads, stores and modifies of a trace, in file order. *)
Fixpoint data_lines (trace : list trace_line) : list trace_line :=
  match trace with
  | [] => []
  | r :: trace' =>
    if is_data (instruct r) then r :: data_lines trace'
    else data_lines trace'
  end.

(** Two lines that hold the same block, or are both free. *)
Definition alike (l l' : cache_line) : Prop :=
  valid_bit l = valid_bit l' ∧ tag l = tag l' ∧ (lru l = 0 ↔ lru l' = 0).

(** Two states with the same counters and the same blocks in the same
    slots. *)
Definition same_blocks (st st' : state) : Prop :=
  hit_count st.2 = hit_count st'.2 ∧
  miss_count st.2 = miss_count st'.2 ∧
  eviction_count st.2 = eviction_count st'.2 ∧
  Forall2 (Forall2 alike) st.1 st'.1.

(** No set is asked to hold more than [E] distinct tags. *)
Definition fits (s b E : Z) (trace : list trace_line) : bool :=
  forallb
    (λ idx, Z.of_nat (length (remove_dups (tags_to_set s b idx trace))) <=? E)
    (seqZ 0 (2 ^ s)).

(** The number of lines with [valid_bit == 1], in a set and in the cache. *)
Fixpoint valid_lines (lines : list cache_line) : Z :=
  match lines with
  | [] => 0
  | l :: lines' => (if valid_bit l =? 1 then 1 else 0) + valid_lines lines'
  end.

Fixpoint valid_in_cache (c : cache_t) : Z :=
  match c with
  | [] => 0
  | lines :: c' => valid_lines lines + valid_in_cache c'
  end.

(** ** The passes, characterised *)

Section passes.
Implicit Types (t d : Z) (g : globals) (l : cache_line)
  (lines : list cache_line).

Lemma lookup_pass_dealt t lines d g :
  d ≠ 0 → lookup_pass t lines d g = (lines, d, g).
Proof.
  intros Hd. induction lines as [|l rest IH]; simpl; [done|].
  apply Z.eqb_neq in Hd. rewrite Hd, !andb_false_r.
  by rewrite IH.
Qed.

Lemma fill_pass_dealt t lines d g :
  d ≠ 0 → fill_pass t lines d g = (lines, d, g).
Proof.
  intros Hd. induction lines as [|l rest IH]; simpl; [done|].
  apply Z.eqb_neq in Hd. rewrite Hd, !andb_false_r.
  by rewrite IH.
Qed.

Lemma modify_pass_dealt t lines d g :
  d ≠ 0 → modify_pass t lines d g = (lines, d, g).
Proof.
  intros Hd. induction lines as [|l rest IH]; simpl; [done|].
  apply Z.eqb_neq in Hd. rewrite Hd, !andb_false_r.
  by rewrite IH.
Qed.

(** The first loop acts on the first line that holds the tag, valid or
    not, and on no other. *)
Lemma lookup_pass_find t lines g :
  lookup_pass t lines 0 g =
    match list_find (λ l, tag l = t) lines with
    | None => (lines, 0, g)
    | Some (i, l) =>
      if valid_bit l =? 1
      then (<[i := touch (global_timer g) l]> lines, 1, incr_hit g)
      else (<[i := revalidate (global_timer g) l]> lines, 1, incr_miss g)
    end.
Proof.
  induction lines as [|l rest IH]; simpl; [done|].
  rewrite andb_true_r. case_decide as Ht.
  - subst t. rewrite Z.eqb_refl. simpl.
    destruct (valid_bit l =? 1); simpl;
      by rewrite lookup_pass_dealt.
  - assert ((t =? tag l) = false) as -> by (apply Z.eqb_neq; congruence).
    simpl. rewrite IH.
    destruct (list_find _ rest) as [[i l']|]; simpl; [|done].
    by destruct (valid_bit l' =? 1).
Qed.

Lemma fill_pass_find t lines g :
  fill_pass t lines 0 g =
    match list_find (λ l, lru l = 0) lines with
    | None => (lines, 0, g)
    | Some (i, _) =>
      (<[i := install t (global_timer g)]> lines, 1, incr_miss g)
    end.
Proof.
  induction lines as [|l rest IH]; simpl; [done|].
  rewrite andb_true_r. case_decide as Ht.
  - rewrite Ht. simpl. by rewrite fill_pass_dealt.
  - apply Z.eqb_neq in Ht. rewrite Ht, IH.
    by destruct (list_find _ rest) as [[i l']|].
Qed.

Lemma modify_pass_find t lines g :
  modify_pass t lines 0 g =
    match list_find (λ l, tag l = t ∧ valid_bit l = 1) lines with
    | None => (lines, 0, g)
    | Some (i, l) =>
      (<[i := touch (global_timer g) l]> lines, 1, incr_hit g)
    end.
Proof.
  induction lines as [|l rest IH]; simpl; [done|].
  rewrite andb_true_r. case_decide as Ht.
  - destruct Ht as [<- ->]. rewrite Z.eqb_refl. simpl.
    by rewrite modify_pass_dealt.
  - assert ((t =? tag l) && (valid_bit l =? 1) = false) as ->.
    { apply andb_false_iff.
      destruct (Z.eqb_spec t (tag l)), (Z.eqb_spec (valid_bit l) 1);
        naive_solver. }
    rewrite IH. by destruct (list_find _ rest) as [[i l']|].
Qed.

End passes.

(** ** The victim of an eviction *)

Lemma first_min_unique lines m m' :
  first_min lines m → first_min lines m' → m = m'.
Proof.
  intros (lm & Hm & Hmin) (lm' & Hm' & Hmin').
  destruct (Hmin _ _ Hm') as [? ?], (Hmin' _ _ Hm) as [? ?].
  destruct (lt_eq_lt_dec m m') as [[?|?]|?]; [|done|]; lia.
Qed.

Lemma min_index_loop_first_min lines rest pre mi :
  lines = pre ++ rest → first_min pre mi →
  ∃ m, min_index_loop lines rest (length pre) mi = Some m ∧ first_min lines m.
Proof.
  revert pre mi. induction rest as [|l rest IH]; intros pre mi -> Hmi.
  { rewrite app_nil_r. by exists mi. }
  destruct Hmi as (lm & Hlm & Hmin). simpl.
  rewrite (lookup_app_l_Some _ _ _ _ Hlm). simpl.
  pose proof (lookup_lt_Some _ _ _ Hlm) as Hlt.
  specialize (IH (pre ++ [l])
    (if lru l <? lru lm then length pre else mi)).
  rewrite length_app, Nat.add_1_r in IH. apply IH.
  { by rewrite <- app_assoc. }
  destruct (Z.ltb_spec (lru l) (lru lm)) as [Hlru|Hlru].
  - exists l. split.
    { rewrite lookup_app_r by lia. by rewrite Nat.sub_diag. }
    intros j l' [Hj|[Hj Hl']]%lookup_app_Some.
    + destruct (Hmin _ _ Hj). lia.
    + destruct (j - length pre)%nat eqn:?; simplify_eq/=. lia.
  - exists lm. split; [by apply lookup_app_l_Some|].
    intros j l' [Hj|[Hj Hl']]%lookup_app_Some; [by apply Hmin|].
    destruct (j - length pre)%nat eqn:?; simplify_eq/=. lia.
Qed.

Lemma find_min_index_first_min lines :
  lines ≠ [] → ∃ m, find_min_index lines = Some m ∧ first_min lines m.
Proof.
  destruct lines as [|l0 rest]; [done|]. intros _.
  apply (min_index_loop_first_min (l0 :: rest) rest [l0] 0%nat); [done|].
  exists l0. split; [done|].
  intros [|j] l; intros; simplify_eq/=. lia.
Qed.

(** ** One data access, by cases *)

Lemma accessed_slot t lines k i :
  accessed t lines k i →
  (i < length lines)%nat ∧
  ∀ j l, lines !! j = Some l → (j < i)%nat → tag l ≠ t.
Proof.
  destruct 1 as [i l Hf _|i l Hf _|i l Hn Hf|m Hn _ (lm & Hm & _)].
  - apply list_find_Some in Hf as (Hi & _ & Hlt).
    split; [by eapply lookup_lt_Some|]. eauto.
  - apply list_find_Some in Hf as (Hi & _ & Hlt).
    split; [by eapply lookup_lt_Some|]. eauto.
  - apply list_find_Some in Hf as (Hi & _ & _).
    split; [by eapply lookup_lt_Some|].
    intros j l' Hj _. rewrite list_find_None, Forall_lookup in Hn. eauto.
  - split; [by eapply lookup_lt_Some|].
    intros j l' Hj _. rewrite list_find_None, Forall_lookup in Hn. eauto.
Qed.

Lemma data_access_accessed t lines g :
  lines ≠ [] →
  ∃ k i, accessed t lines k i ∧
    data_access t lines g =
      Some (<[i := install t (global_timer g)]> lines, charge k g).
Proof.
  intros Hne. unfold data_access. rewrite lookup_pass_find.
  destruct (list_find (λ l, tag l = t) lines) as [[i l]|] eqn:Hfind.
  - pose proof Hfind as (_ & Htag & _)%list_find_Some.
    destruct (Z.eqb_spec (valid_bit l) 1) as [Hv|Hv]; simpl.
    + exists Hit, i. split; [by eapply acc_hit|].
      unfold touch, install. by rewrite Hv, Htag.
    + exists Revalidated, i. split; [by eapply acc_revalidated|].
      unfold revalidate, install. by rewrite Htag.
  - simpl. rewrite fill_pass_find.
    destruct (list_find (λ l, lru l = 0) lines) as [[i l]|] eqn:Hfree; simpl.
    + exists Filled, i. split; [by eapply acc_filled|done].
    + destruct (find_min_index_first_min lines Hne) as (m & Hm & Hmin).
      exists Evicted, m. split; [by apply acc_evicted|].
      unfold evict. rewrite Hm. simpl.
      destruct Hmin as (lm & -> & _). done.
Qed.

(** After the access the tag is in slot [i], valid, and in no slot before:
    the second lookup of a modify hits that slot and leaves the set as it
    is. *)
Lemma find_after_access t lines k i timer :
  accessed t lines k i →
  list_find (λ l, tag l = t ∧ valid_bit l = 1)
    (<[i := install t timer]> lines) = Some (i, install t timer).
Proof.
  intros [Hi Hbefore]%accessed_slot.
  apply list_find_Some. split; [|split].
  - by apply list_lookup_insert_eq.
  - done.
  - intros j l Hj Hlt [Htag _].
    rewrite list_lookup_insert_ne in Hj by lia. by eapply Hbefore.
Qed.

Lemma modify_pass_after_access t lines k i timer g :
  accessed t lines k i → global_timer g = timer →
  modify_pass t (<[i := install t timer]> lines) 0 g =
    (<[i := install t timer]> lines, 1, incr_hit g).
Proof.
  intros Hacc Htimer.
  rewrite modify_pass_find, (find_after_access _ _ _ _ _ Hacc).
  rewrite list_insert_insert_eq. unfold touch, install. simpl.
  by rewrite Htimer.
Qed.

(** ** Geometry and well-formed caches *)

Lemma is_data_M c : Ascii.eqb c "M" = true → is_data c = true.
Proof. unfold is_data. intros ->. by rewrite orb_true_r. Qed.

Lemma global_timer_charge k g : global_timer (charge k g) = global_timer g.
Proof. by destruct k. Qed.

Lemma int_add_in_range x y :
  INT_MIN <= x + y <= INT_MAX → int_add x y = Some (x + y).
Proof. intros. unfold int_add, in_int. by rewrite andb_true_intro by lia. Qed.

Lemma int_sub_in_range x y :
  INT_MIN <= x - y <= INT_MAX → int_sub x y = Some (x - y).
Proof. intros. unfold int_sub, in_int. by rewrite andb_true_intro by lia. Qed.

Lemma int_shl_in_range x n :
  0 <= x → 0 <= n < 32 → x * 2 ^ n <= INT_MAX →
  int_shl x n = Some (Z.shiftl x n).
Proof.
  intros. unfold int_shl.
  by rewrite !andb_true_intro by (repeat split; lia).
Qed.

Lemma ull_shr_in_range a n :
  0 <= n < 64 → ull_shr a n = Some (Z.shiftr a n).
Proof. intros. unfold ull_shr. by rewrite andb_true_intro by lia. Qed.

Lemma decode_defined s b addr :
  0 <= s <= 30 → 0 <= b → b + s <= 63 →
  decode s b addr =
    Some (Z.shiftr addr (b + s), Z.shiftr addr b `mod` 2 ^ s).
Proof.
  intros Hs Hb Hbs. unfold decode.
  assert (0 < 2 ^ s <= 2 ^ 30) as Hpow.
  { split; [lia|]. apply Z.pow_le_mono_r; lia. }
  rewrite int_add_in_range by (unfold INT_MIN, INT_MAX; lia).
  cbn [mbind option_bind].
  rewrite !ull_shr_in_range by lia. cbn [mbind option_bind].
  rewrite int_shl_in_range by (unfold INT_MAX; lia).
  cbn [mbind option_bind]. rewrite Z.shiftl_1_l.
  rewrite int_sub_in_range by (unfold INT_MIN, INT_MAX; lia).
  cbn [mbind option_bind]. unfold ull_of_int, ULL_MOD.
  rewrite (Z.mod_small (2 ^ s - 1)) by lia.
  replace (2 ^ s - 1) with (Z.ones s) by (rewrite Z.ones_equiv; lia).
  by rewrite Z.land_ones by lia.
Qed.

Lemma decode_index_bound s b addr t idx :
  0 <= s <= 30 → 0 <= b → b + s <= 63 →
  decode s b addr = Some (t, idx) → 0 <= idx < 2 ^ s.
Proof.
  intros Hs Hb Hbs. rewrite decode_defined by done.
  intros [= _ <-]. apply Z.mod_pos_bound. lia.
Qed.

Lemma process_line_data s b st r t idx lines :
  decode s b (address r) = Some (t, idx) →
  is_data (instruct r) = true →
  st.1 !! Z.to_nat idx = Some lines →
  lines ≠ [] →
  ∃ k i, accessed t lines k i ∧
    process_line s b st r =
      Some (<[Z.to_nat idx :=
               <[i := install t (ull_incr (global_timer st.2))]> lines]> st.1,
            modify_credit r (charge k (tick st.2))).
Proof.
  intros Hdec Hdata Hset Hne.
  destruct (data_access_accessed t lines (tick st.2) Hne)
    as (k & i & Hacc & Heq).
  exists k, i. split; [done|].
  unfold process_line, first_part, first_lookup, modify_credit.
  rewrite Hdec. simpl. rewrite Hdata, Hset. simpl. rewrite Heq. simpl.
  destruct (Ascii.eqb (instruct r) "M"); [|done].
  unfold second_lookup. simpl.
  rewrite list_lookup_insert_eq by (by eapply lookup_lt_Some). simpl.
  erewrite modify_pass_after_access; [|done|by rewrite global_timer_charge].
  by rewrite list_insert_insert_eq.
Qed.

Lemma process_line_other s b st r t idx :
  decode s b (address r) = Some (t, idx) →
  is_data (instruct r) = false →
  process_line s b st r = Some (st.1, tick st.2).
Proof.
  intros Hdec Hdata. unfold process_line, first_part. rewrite Hdec. simpl.
  rewrite Hdata. simpl.
  destruct (Ascii.eqb (instruct r) "M") eqn:HM; [|done].
  apply is_data_M in HM. congruence.
Qed.

(** ** The step relation of the simulator *)

Section runs.
Context (s b E : Z) (Hgeom : geometry_ok s b E).

Lemma wf_cache_set c idx lines :
  wf_cache s E c → c !! idx = Some lines → lines ≠ [].
Proof.
  intros [_ Hsets] Hset.
  pose proof (Forall_lookup_1 _ _ _ _ Hsets Hset) as Hlen.
  destruct Hgeom as (_ & _ & _ & HE). destruct lines; simpl in *; [lia|done].
Qed.

Lemma wf_cache_index c addr t idx :
  wf_cache s E c → decode s b addr = Some (t, idx) →
  is_Some (c !! Z.to_nat idx).
Proof.
  intros [Hlen _] Hdec. destruct Hgeom as (Hs & Hb & Hbs & _).
  apply (decode_index_bound s b) in Hdec; [|done..].
  apply lookup_lt_is_Some. rewrite Hlen. lia.
Qed.

(** On a well-formed cache every trace line is defined, and is a step. *)
Lemma process_line_step st r :
  wf_cache s E st.1 →
  ∃ st', process_line s b st r = Some st' ∧ step s b st r st'.
Proof.
  intros Hwf. pose proof Hgeom as (Hs & Hb & Hbs & _).
  pose proof (decode_defined s b (address r) Hs Hb Hbs) as Hdec.
  destruct (is_data (instruct r)) eqn:Hdata.
  - destruct (wf_cache_index _ _ _ _ Hwf Hdec) as [lines Hset].
    destruct (process_line_data s b st r _ _ lines Hdec Hdata Hset)
      as (k & i & Hacc & Heq); [by eapply wf_cache_set|].
    eexists. split; [done|]. by eapply step_access.
  - eexists. split; [by eapply process_line_other|].
    by eapply step_skip.
Qed.

Lemma step_wf st r st' :
  wf_cache s E st.1 → step s b st r st' → wf_cache s E st'.1.
Proof.
  intros [Hlen Hsets] [t idx _ _|t idx lines k i _ _ Hset _]; [done|].
  split; simpl; [by rewrite length_insert|].
  apply Forall_insert; [done|]. rewrite length_insert.
  by eapply (Forall_lookup_1 _ _ _ _ Hsets).
Qed.

(** Induction over a run: a property indexed by the number of lines
    processed that every step carries from [n] to [S n] holds at the end
    of the trace, and the run is defined. *)
Lemma read_file_ind_steps (P : nat → state → Prop) :
  (∀ n st r st', wf_cache s E st.1 → P n st → step s b st r st' →
                 P (S n) st') →
  ∀ trace n st, wf_cache s E st.1 → P n st →
  ∃ st', read_file s b trace st = Some st' ∧
         wf_cache s E st'.1 ∧ P (n + length trace)%nat st'.
Proof.
  intros Hstep. induction trace as [|r trace IH]; intros n st Hwf HP.
  { exists st. by rewrite Nat.add_0_r. }
  destruct (process_line_step st r Hwf) as (st1 & Heq & Hst).
  destruct (IH (S n) st1) as (st' & Hrun & Hwf' & HP').
  { by eapply step_wf. }
  { by eapply Hstep. }
  exists st'. simpl. rewrite Heq. simpl.
  by rewrite <- Nat.add_succ_comm.
Qed.

Lemma read_file_invariant (P : state → Prop) :
  (∀ st r st', wf_cache s E st.1 → P st → step s b st r st' → P st') →
  ∀ trace st, wf_cache s E st.1 → P st →
  ∃ st', read_file s b trace st = Some st' ∧ wf_cache s E st'.1 ∧ P st'.
Proof.
  intros Hstep trace st Hwf HP.
  destruct (read_file_ind_steps (λ _, P)) with (trace := trace) (n := 0%nat)
    (st := st) as (st' & ? & ? & ?); eauto.
Qed.

Lemma make_cache_wf : wf_cache s E (make_cache (2 ^ s) E).
Proof.
  destruct Hgeom as (_ & _ & _ & HE). unfold make_cache. split.
  - by rewrite length_replicate.
  - apply Forall_replicate. rewrite length_replicate. lia.
Qed.

End runs.

(** ** Invariants of the sets *)

Lemma no_later_copy_no_duplicate lines :
  no_later_copy lines → no_duplicate_tags lines.
Proof.
  intros Hinv i j li lj Hi Hj Hvi Hvj Htag.
  destruct (lt_eq_lt_dec i j) as [[Hlt|?]|Hlt]; [|done|].
  - by destruct (Hinv i j li lj).
  - by destruct (Hinv j i lj li).
Qed.

Lemma accessed_tag_cases t lines k i :
  accessed t lines k i →
  (∃ l, lines !! i = Some l ∧ tag l = t) ∨
  (∀ j l, lines !! j = Some l → tag l ≠ t).
Proof.
  destruct 1 as [i l Hf _|i l Hf _|i l Hn _|m Hn _ _].
  - apply list_find_Some in Hf as (? & ? & _). eauto.
  - apply list_find_Some in Hf as (? & ? & _). eauto.
  - right. rewrite list_find_None, Forall_lookup in Hn. eauto.
  - right. rewrite list_find_None, Forall_lookup in Hn. eauto.
Qed.

Lemma accessed_no_later_copy t lines k i timer :
  accessed t lines k i → no_later_copy lines →
  no_later_copy (<[i := install t timer]> lines).
Proof.
  intros Hacc Hinv i' j' li lj Hlt Hi Hj Htag.
  destruct (accessed_slot _ _ _ _ Hacc) as [Hlen Hbefore].
  apply list_lookup_insert_Some in Hi as [(<- & <- & _)|[Hne Hi]];
    apply list_lookup_insert_Some in Hj as [(<- & <- & _)|[Hne' Hj]];
    simpl in *.
  - lia.
  - destruct (accessed_tag_cases _ _ _ _ Hacc) as [(l & Hl & Hlt')|Hnone].
    + apply (Hinv i j' l lj); [done..|congruence].
    + by destruct (Hnone _ _ Hj).
  - destruct (Hbefore _ _ Hi Hlt Htag).
  - exact (Hinv _ _ _ _ Hlt Hi Hj Htag).
Qed.

Lemma install_free_or_valid t (lines : list cache_line) i timer :
  Forall line_free_or_valid lines →
  Forall line_free_or_valid (<[i := install t timer]> lines).
Proof. intros. apply Forall_insert; [done|]. by left. Qed.

Lemma install_sentinel_exact t (lines : list cache_line) i timer :
  timer ≠ 0 → Forall sentinel_exact lines →
  Forall sentinel_exact (<[i := install t timer]> lines).
Proof. intros. apply Forall_insert; [done|]. by left. Qed.

(** Lifting a property of sets that an access keeps to the whole cache. *)
Lemma step_sets (P : list cache_line → Prop) s b st r st' :
  (∀ t lines k i,
      accessed t lines k i → P lines →
      P (<[i := install t (ull_incr (global_timer st.2))]> lines)) →
  Forall P st.1 → step s b st r st' → Forall P st'.1.
Proof.
  intros Hkeep Hall [t idx _ _|t idx lines k i _ _ Hset Hacc]; [done|].
  simpl. apply Forall_insert; [done|].
  eapply Hkeep; [done|]. by eapply (Forall_lookup_1 _ _ _ _ Hall).
Qed.

(** ** The counters along a step *)

Lemma lookups_count trace :
  foldr (λ r n, lookups r + n) 0 trace =
    count_instruct "L" trace + count_instruct "S" trace
    + 2 * count_instruct "M" trace.
Proof.
  induction trace as [|[c a z] trace IH]; simpl; [done|]. rewrite IH.
  unfold lookups, is_data. simpl.
  destruct (Ascii.eqb_spec c "M") as [->|]; [simpl; lia|].
  destruct (Ascii.eqb_spec c "L") as [->|]; [simpl; lia|].
  destruct (Ascii.eqb_spec c "S") as [->|]; simpl; lia.
Qed.

Lemma step_counters s b st r st' :
  step s b st r st' →
  hit_count st'.2 + miss_count st'.2
    = hit_count st.2 + miss_count st.2 + lookups r ∧
  (eviction_count st'.2 = eviction_count st.2 ∧
     miss_count st.2 <= miss_count st'.2
   ∨ eviction_count st'.2 = eviction_count st.2 + 1 ∧
     miss_count st'.2 = miss_count st.2 + 1) ∧
  global_timer st'.2 = ull_incr (global_timer st.2).
Proof.
  intros [t idx _ Hdata|t idx lines k i _ Hdata _ _]; simpl.
  - unfold lookups. rewrite Hdata.
    destruct (Ascii.eqb (instruct r) "M") eqn:HM.
    { apply is_data_M in HM. congruence. }
    split_and!; [lia| left; lia | done].
  - unfold lookups, modify_credit. rewrite Hdata.
    destruct (Ascii.eqb (instruct r) "M"), k; simpl;
      split_and!; first [lia | left; lia | right; lia | done].
Qed.

(** ** Runs from the initial cache *)

Lemma step_hit_or_miss s b st r st' :
  step s b st r st' → is_data (instruct r) = true →
  let second := if Ascii.eqb (instruct r) "M" then 1 else 0 in
  hit_count st'.2 = hit_count st.2 + 1 + second ∧
    miss_count st'.2 = miss_count st.2
  ∨ hit_count st'.2 = hit_count st.2 + second ∧
    miss_count st'.2 = miss_count st.2 + 1.
Proof.
  intros [t idx _ Hskip|t idx lines k i _ _ _ _] Hdata; [congruence|].
  simpl. unfold modify_credit.
  destruct (Ascii.eqb (instruct r) "M"), k; simpl; lia.
Qed.

Section from_init.
Context (s b E : Z) (Hgeom : geometry_ok s b E).

Lemma read_file_lookups trace st :
  wf_cache s E st.1 →
  ∃ st', read_file s b trace st = Some st' ∧
    hit_count st'.2 + miss_count st'.2 =
      hit_count st.2 + miss_count st.2
      + foldr (λ r n, lookups r + n) 0 trace.
Proof.
  revert st. induction trace as [|r trace IH]; intros st Hwf.
  { exists st. split; [done|]. simpl. lia. }
  destruct (process_line_step s b E Hgeom st r Hwf) as (st1 & Heq & Hst).
  destruct (IH st1) as (st' & Hrun & Hsum);
    [by apply (step_wf s b E st r st1)|].
  exists st'. simpl. rewrite Heq. split; [done|].
  apply step_counters in Hst as (Hone & _). lia.
Qed.

Lemma make_cache_no_later_copy : Forall no_later_copy (make_cache (2 ^ s) E).
Proof.
  apply Forall_replicate. intros i j li lj _ _ Hj _.
  by apply lookup_replicate in Hj as [-> _].
Qed.

Lemma make_cache_free_or_valid :
  Forall (Forall line_free_or_valid) (make_cache (2 ^ s) E).
Proof. apply Forall_replicate, Forall_replicate. by right. Qed.

Lemma make_cache_sentinel_exact :
  Forall (Forall sentinel_exact) (make_cache (2 ^ s) E).
Proof. apply Forall_replicate, Forall_replicate. by right. Qed.

Lemma reachable_no_later_copy trace :
  ∃ st, read_file s b trace (init_state (2 ^ s) E) = Some st ∧
    wf_cache s E st.1 ∧ Forall no_later_copy st.1.
Proof.
  apply (read_file_invariant s b E Hgeom (λ st, Forall no_later_copy st.1)).
  - intros st r st' _ Hinv Hst. eapply step_sets; [|done..].
    intros. by eapply accessed_no_later_copy.
  - by apply (make_cache_wf s b E).
  - apply make_cache_no_later_copy.
Qed.


(** While the timer has not wrapped it counts the trace lines, and the
    line a step writes gets a non-zero [lru]. *)
Lemma reachable_sentinel_exact trace :
  Z.of_nat (length trace) < ULL_MOD →
  ∃ st, read_file s b trace (init_state (2 ^ s) E) = Some st ∧
    global_timer st.2 = Z.of_nat (length trace) ∧
    Forall (Forall sentinel_exact) st.1.
Proof.
  intros Hlen.
  destruct (read_file_ind_steps s b E Hgeom
    (λ n st, Z.of_nat n < ULL_MOD →
             global_timer st.2 = Z.of_nat n ∧
             Forall (Forall sentinel_exact) st.1))
    with (trace := trace) (n := 0%nat) (st := init_state (2 ^ s) E)
    as (st & Hrun & _ & HP).
  - intros n st r st' _ HP Hst Hn.
    destruct HP as [Htimer Hinv]; [lia|].
    pose proof (step_counters _ _ _ _ _ Hst) as (_ & _ & Htick).
    assert (global_timer st'.2 = Z.of_nat (S n)) as Hnew.
    { rewrite Htick, Htimer. unfold ull_incr.
      rewrite Z.mod_small; lia. }
    split; [done|]. eapply step_sets; [|done..].
    intros. apply install_sentinel_exact; [|done].
    rewrite <- Htick, Hnew. lia.
  - by apply (make_cache_wf s b E).
  - intros _. split; [done|]. apply make_cache_sentinel_exact.
  - exists st. split; [done|]. by apply HP.
Qed.

End from_init.

(** ** The counters fit the C variables *)

Lemma step_monotone s b st r st' :
  step s b st r st' →
  hit_count st.2 <= hit_count st'.2 <= hit_count st.2 + 2 ∧
  miss_count st.2 <= miss_count st'.2 <= miss_count st.2 + 1 ∧
  eviction_count st.2 <= eviction_count st'.2 <= eviction_count st.2 + 1.
Proof.
  intros [t idx _ _|t idx lines k i _ _ _ _]; simpl; [lia|].
  unfold modify_credit.
  destruct (Ascii.eqb (instruct r) "M"), k; simpl; lia.
Qed.

(** After [n] trace lines the counts are between 0 and [2 * n]. *)
Lemma counters_bounded s b E trace :
  geometry_ok s b E →
  ∃ st, read_file s b trace (init_state (2 ^ s) E) = Some st ∧
    0 <= hit_count st.2 <= 2 * Z.of_nat (length trace) ∧
    0 <= miss_count st.2 <= Z.of_nat (length trace) ∧
    0 <= eviction_count st.2 <= Z.of_nat (length trace).
Proof.
  intros Hgeom.
  destruct (read_file_ind_steps s b E Hgeom
    (λ n st, 0 <= hit_count st.2 <= 2 * Z.of_nat n ∧
             0 <= miss_count st.2 <= Z.of_nat n ∧
             0 <= eviction_count st.2 <= Z.of_nat n))
    with (trace := trace) (n := 0%nat) (st := init_state (2 ^ s) E)
    as (st & Hrun & _ & HP).
  - intros n st r st' _ HP Hst. apply step_monotone in Hst. lia.
  - by apply (make_cache_wf s b E).
  - simpl. lia.
  - by exists st.
Qed.

(** ** Two small traces *)

Example repeated_hit :
  stats (read_file 1 1 [L 0; L 0] (init_state 2 1)) = Some (1, 1, 0).
Proof. reflexivity. Qed.

Example modify_once :
  stats (read_file 1 1 [M 0] (init_state 2 1)) = Some (1, 1, 0).
Proof. reflexivity. Qed.

(** * The claims *)

(** ** Address decoding *)

(** C4 (as amended): for every 64-bit address and every geometry with
    [1 <= s <= 30], [1 <= b] and [s + b <= 63], every operation of the
    decoder is defined (no [int] overflow, no shift by 64 or more) and it
    yields [tag = address >> (b + s)] and
    [index = (address >> b) mod 2^s], an index below the [2^s] sets. *)
Theorem decode_correct (s b addr : Z) :
  0 <= addr < 2 ^ 64 → 1 <= s <= 30 → 1 <= b → s + b <= 63 →
  decode s b addr =
    Some (Z.shiftr addr (b + s), Z.shiftr addr b `mod` 2 ^ s) ∧
  0 <= Z.shiftr addr b `mod` 2 ^ s < 2 ^ s ∧
  0 <= Z.shiftr addr (b + s) < 2 ^ 64.
Proof.
  intros Haddr Hs Hb Hsb. split; [|split].
  - apply decode_defined; lia.
  - apply Z.mod_pos_bound. lia.
  - rewrite Z.shiftr_div_pow2 by lia. split.
    + apply Z.div_pos; lia.
    + apply Z.div_lt_upper_bound; [lia|].
      assert (1 <= 2 ^ (b + s)) by lia. nia.
Qed.

Lemma decode_correct_witness :
  decode 4 4 0x7ff0005c8 = Some (0x7ff0005, 0xc).
Proof.
  destruct (decode_correct 4 4 0x7ff0005c8) as (Hdec & _); [lia..|].
  exact Hdec.
Defined.

(** C4 (as stated) fails: with [s = 32], [b = 1] the mask [(1 << s) - 1]
    shifts an [int] by its width, and with [s = 1], [b = 63] the tag is the
    address shifted by 64; neither is defined although [s + b <= 64]. *)
Lemma decode_overflow :
  (1 <= 32 ∧ 1 <= 1 ∧ 32 + 1 <= 64 ∧ 0 <= 2 < 2 ^ 64 ∧
   decode 32 1 2 ≠ Some (Z.shiftr 2 (1 + 32), Z.shiftr 2 1 `mod` 2 ^ 32)) ∧
  (1 <= 1 ∧ 1 <= 63 ∧ 1 + 63 <= 64 ∧ 0 <= 2 < 2 ^ 64 ∧
   decode 1 63 2 ≠ Some (Z.shiftr 2 (63 + 1), Z.shiftr 2 63 `mod` 2 ^ 1)).
Proof.
  split; (repeat (split; [lia|])); vm_compute; discriminate.
Qed.

(** ** Argument checking in [main] *)

(** The check on line 211, on the values the options left: a zero [s],
    [E] or [b] and a null [trace_file] go to the usage; anything else goes
    on to build the cache. *)
Lemma main_zero_check (s E b : Z) (trace_file : option (list trace_line)) :
  (s = 0 ∨ E = 0 ∨ b = 0 ∨ trace_file = None →
   main s E b trace_file = printUsage true) ∧
  (s ≠ 0 → E ≠ 0 → b ≠ 0 → is_Some trace_file →
   ∀ m status, main s E b trace_file ≠ Usage m status).
Proof.
  unfold main. split.
  - intros [-> | [-> | [-> | ->]]]; rewrite ?orb_true_r; simpl; try done.
    by destruct (_ || _).
  - intros Hs HE Hb [trace ->] m status.
    apply Z.eqb_neq in Hs, HE, Hb. rewrite Hs, HE, Hb. simpl.
    destruct (pow2_int s), (pow2_int b); try done.
    by destruct (read_file _ _ _ _) as [[? ?]|].
Qed.

(** ** Instruction lines *)

(** C6 (as amended): a line whose instruction is not [L], [S] or [M] leaves
    the three counters and every cache line unchanged and advances
    [global_timer] by one: the timer is incremented once per trace line,
    instruction lines included. *)
Theorem instruction_line_only_ticks (s b : Z) (st : state) (r : trace_line) :
  0 <= s <= 30 → 0 <= b → b + s <= 63 →
  is_data (instruct r) = false →
  ∃ st', process_line s b st r = Some st' ∧
    st'.1 = st.1 ∧
    hit_count st'.2 = hit_count st.2 ∧
    miss_count st'.2 = miss_count st.2 ∧
    eviction_count st'.2 = eviction_count st.2 ∧
    global_timer st'.2 = (global_timer st.2 + 1) `mod` 2 ^ 64.
Proof.
  intros Hs Hb Hbs Hdata. exists (st.1, tick st.2). split; [|done].
  eapply process_line_other; [|done]. by apply decode_defined.
Qed.

Lemma instruction_line_only_ticks_witness :
  ∃ st', process_line 4 4 (init_state 16 2) (I 0x400d7d4) = Some st' ∧
    st'.1 = make_cache 16 2 ∧
    hit_count st'.2 = 0 ∧ miss_count st'.2 = 0 ∧ eviction_count st'.2 = 0 ∧
    global_timer st'.2 = (0 + 1) `mod` 2 ^ 64.
Proof.
  apply (instruction_line_only_ticks 4 4 (init_state 16 2) (I 0x400d7d4));
    [lia..|reflexivity].
Defined.

(** C6 (as stated) fails: an instruction line changes [global_timer]. *)
Lemma instruction_line_ticks :
  ∃ st', process_line 1 1 (init_state 2 1) (I 0) = Some st' ∧
    global_timer (init_state 2 1).2 = 0 ∧ global_timer st'.2 = 1.
Proof. eexists. split; [reflexivity|]. split; reflexivity. Qed.

(** ** Counters *)

(** C9: with [s = 0], [b = 0], [E = 1] the loads of addresses 0 and 4 are a
    cold miss and a miss with an eviction: [hits = 0], [misses = 2],
    [evictions = 1]. *)
Theorem single_line_cache :
  stats (read_file 0 0 [L 0] (init_state (2 ^ 0) 1)) = Some (0, 1, 0) ∧
  stats (read_file 0 0 [L 0; L 4] (init_state (2 ^ 0) 1)) = Some (0, 2, 1) ∧
  decode 0 0 0 = Some (0, 0) ∧ decode 0 0 4 = Some (4, 0).
Proof. repeat split; vm_compute; reflexivity. Qed.

(** ** Resident tags *)

(** C8: in every state reached from the initial cache no set holds a tag in
    two distinct valid lines, and every further trace line keeps it so. *)
Theorem no_duplicate_resident_tags (s b E : Z) (trace : list trace_line) :
  geometry_ok s b E →
  ∃ st, read_file s b trace (init_state (2 ^ s) E) = Some st ∧
    Forall no_duplicate_tags st.1 ∧
    ∀ r, ∃ st', process_line s b st r = Some st' ∧
                Forall no_duplicate_tags st'.1.
Proof.
  intros Hgeom.
  destruct (reachable_no_later_copy s b E Hgeom trace)
    as (st & Hrun & Hwf & Hinv).
  exists st. split; [done|]. split.
  - eapply Forall_impl; [done|]. apply no_later_copy_no_duplicate.
  - intros r.
    destruct (process_line_step s b E Hgeom st r Hwf) as (st' & Heq & Hst).
    exists st'. split; [done|].
    eapply Forall_impl; [|apply no_later_copy_no_duplicate].
    eapply step_sets; [|done..].
    intros. by eapply accessed_no_later_copy.
Qed.

Lemma no_duplicate_resident_tags_witness :
  ∃ st, read_file 1 1 [L 16; L 0; L 0; M 32] (init_state (2 ^ 1) 2)
          = Some st ∧
    Forall no_duplicate_tags st.1 ∧
    ∀ r, ∃ st', process_line 1 1 st r = Some st' ∧
                Forall no_duplicate_tags st'.1.
Proof.
  apply (no_duplicate_resident_tags 1 1 2 [L 16; L 0; L 0; M 32]).
  unfold geometry_ok. lia.
Defined.

(** ** Eviction *)

Lemma has_free_slot_false lines :
  has_free_slot lines = false → list_find (λ l, lru l = 0) lines = None.
Proof.
  intros Hfree. apply list_find_None.
  induction lines as [|l lines IH]; [done|].
  simpl in Hfree. apply orb_false_iff in Hfree as [Hl Hrest].
  constructor; [lia|by apply IH].
Qed.

(** When no line has [lru == 0] in a set whose invalid lines were never
    written, a tag that is not resident is in no line at all. *)
Lemma resident_false t lines :
  Forall line_free_or_valid lines →
  has_free_slot lines = false → resident t lines = false →
  list_find (λ l, tag l = t) lines = None.
Proof.
  intros Hinv Hfree Hres. apply list_find_None.
  induction Hinv as [|l lines Hl _ IH]; [done|].
  simpl in Hfree, Hres.
  apply orb_false_iff in Hfree as [Hfree Hfree'].
  apply orb_false_iff in Hres as [Hres Hres'].
  constructor; [|by apply IH].
  destruct Hl as [Hv|[_ Hlru]]; [|lia].
  rewrite Hv in Hres. simpl in Hres. lia.
Qed.

Lemma accessed_evicted t lines k i :
  list_find (λ l, tag l = t) lines = None →
  list_find (λ l, lru l = 0) lines = None →
  accessed t lines k i → k = Evicted ∧ first_min lines i.
Proof.
  intros Htag Hfree [? ? Hf _|? ? Hf _|? ? _ Hf|m _ _ Hmin];
    [congruence..|done].
Qed.

Section two_lines.
Implicit Types (t : Z) (g : globals).





End two_lines.






(** ** The second lookup of a modify *)




(** ** The [lru == 0] sentinel *)

Lemma find_free_is_find_invalid lines :
  Forall sentinel_exact lines →
  list_find (λ l, lru l = 0) lines = list_find (λ l, valid_bit l = 0) lines.
Proof.
  induction 1 as [|l lines Hl _ IH]; [done|]. simpl. rewrite IH.
  destruct Hl as [[Hv Hlru]|[Hv Hlru]]; repeat case_decide; try done; lia.
Qed.

(** C10 (as amended): in every state reached from the initial cache by a
    trace of less than 2^64 lines, a cache line has [valid_bit == 1] if and
    only if its [lru] is not 0, and [valid_bit == 0] otherwise; so the scan
    for [lru == 0] finds exactly the first line that is not valid. *)
Theorem sentinel_marks_invalid (s b E : Z) (trace : list trace_line) :
  geometry_ok s b E →
  Z.of_nat (length trace) < 2 ^ 64 →
  ∃ st, read_file s b trace (init_state (2 ^ s) E) = Some st ∧
    ∀ lines, lines ∈ st.1 →
      (∀ l, l ∈ lines →
         (valid_bit l = 1 ↔ lru l ≠ 0) ∧ (valid_bit l = 0 ↔ lru l = 0)) ∧
      list_find (λ l, lru l = 0) lines =
        list_find (λ l, valid_bit l = 0) lines.
Proof.
  intros Hgeom Hlen.
  destruct (reachable_sentinel_exact s b E Hgeom trace Hlen)
    as (st & Hrun & _ & Hinv).
  exists st. split; [done|]. intros lines Hlines.
  rewrite Forall_forall in Hinv. specialize (Hinv _ Hlines).
  split; [|by apply find_free_is_find_invalid].
  intros l Hl. rewrite Forall_forall in Hinv.
  destruct (Hinv _ Hl) as [[Hv Hlru]|[Hv Hlru]]; rewrite Hv; lia.
Qed.

Lemma sentinel_marks_invalid_witness :
  ∃ st, read_file 1 1 [L 0; I 0; M 4; L 8] (init_state (2 ^ 1) 2) = Some st ∧
    ∀ lines, lines ∈ st.1 →
      (∀ l, l ∈ lines →
         (valid_bit l = 1 ↔ lru l ≠ 0) ∧ (valid_bit l = 0 ↔ lru l = 0)) ∧
      list_find (λ l, lru l = 0) lines =
        list_find (λ l, valid_bit l = 0) lines.
Proof.
  apply (sentinel_marks_invalid 1 1 2 [L 0; I 0; M 4; L 8]).
  - unfold geometry_ok. lia.
  - simpl. lia.
Defined.

(** *** After 2^64 lines the timer is 0 again *)

Lemma read_file_app s b trace1 trace2 st :
  read_file s b (trace1 ++ trace2) st =
    read_file s b trace1 st ≫= read_file s b trace2.
Proof.
  revert st. induction trace1 as [|r trace1 IH]; intros st; [done|].
  simpl. destruct (process_line s b st r) as [st'|]; [apply IH|done].
Qed.

Lemma iter_ull_incr (n : nat) (t : Z) :
  0 <= t < ULL_MOD →
  Nat.iter n ull_incr t = (t + Z.of_nat n) `mod` ULL_MOD.
Proof.
  intros Ht. induction n as [|n IH].
  - simpl. rewrite Z.add_0_r, Z.mod_small; lia.
  - rewrite Nat.iter_succ, IH. unfold ull_incr.
    rewrite Z.add_mod_idemp_l by (unfold ULL_MOD; lia).
    f_equal. lia.
Qed.

Lemma read_file_instructions s b a (n : nat) c g :
  0 <= s <= 30 → 0 <= b → b + s <= 63 →
  read_file s b (replicate n (I a)) (c, g) =
    Some (c, Globals (miss_count g) (hit_count g) (eviction_count g)
                     (Nat.iter n ull_incr (global_timer g))).
Proof.
  intros Hs Hb Hbs. revert g. induction n as [|n IH]; intros g.
  { by destruct g. }
  cbn [replicate read_file].
  erewrite process_line_other; [|by apply decode_defined|done].
  cbn [mbind option_bind]. rewrite IH, Nat.iter_succ_r. done.
Qed.

(** C10 (as stated) fails: after the 2^64 lines of [wrapping_trace] the
    timer has wrapped to 0, the second load hits its line and stores 0 in
    its [lru]; the line is valid with [lru == 0]. *)
Lemma sentinel_after_wrap :
  Z.of_nat (length wrapping_trace) = 2 ^ 64 ∧
  ∃ st l, read_file 1 1 wrapping_trace (init_state (2 ^ 1) 1) = Some st ∧
    st.1 !! 0%nat = Some [l] ∧ valid_bit l = 1 ∧ lru l = 0.
Proof.
  assert (Z.of_nat wrap_gap = 2 ^ 64 - 2) as Hgap.
  { unfold wrap_gap. apply Z2Nat.id. lia. }
  unfold wrapping_trace. revert Hgap. generalize wrap_gap. intros n Hn.
  split.
  { rewrite !length_app, length_replicate. cbn [length]. lia. }
  exists ([[CacheLine 1 0 0]; [CacheLine 0 0 0]], Globals 1 1 0 0),
         (CacheLine 1 0 0).
  split; [|done].
  rewrite read_file_app.
  assert (read_file 1 1 [L 0] (init_state (2 ^ 1) 1) =
          Some ([[CacheLine 1 1 0]; [CacheLine 0 0 0]], Globals 1 0 0 1))
    as -> by reflexivity.
  cbn [mbind option_bind].
  rewrite read_file_app, read_file_instructions by lia. cbn [mbind option_bind].
  rewrite iter_ull_incr by (unfold ULL_MOD; simpl; lia).
  cbn [miss_count hit_count eviction_count global_timer].
  rewrite Hn.
  replace ((1 + (2 ^ 64 - 2)) `mod` ULL_MOD) with (2 ^ 64 - 1)
    by (unfold ULL_MOD; rewrite Z.mod_small; lia).
  reflexivity.
Qed.

(** * Further properties of the simulator *)

(** ** Blocks and addresses *)

Lemma shiftr_tag a s b :
  0 <= s → 0 <= b → Z.shiftr a (b + s) = Z.shiftr a b / 2 ^ s.
Proof.
  intros Hs Hb. by rewrite <- Z.shiftr_shiftr, (Z.shiftr_div_pow2 _ s).
Qed.

Lemma decode_of_block s b a a' :
  0 <= s <= 30 → 0 <= b → b + s <= 63 →
  Z.shiftr a b = Z.shiftr a' b → decode s b a = decode s b a'.
Proof.
  intros Hs Hb Hbs Hblock. rewrite !decode_defined by done.
  by rewrite !shiftr_tag, Hblock by lia.
Qed.

(** Two addresses decode to the same tag and set exactly when they are in
    the same block of [2^b] bytes. *)
Theorem decode_same_block (s b a a' : Z) :
  0 <= s <= 30 → 0 <= b → b + s <= 63 →
  decode s b a = decode s b a' ↔ Z.shiftr a b = Z.shiftr a' b.
Proof.
  intros Hs Hb Hbs. split; [|by apply decode_of_block].
  rewrite !decode_defined by done. rewrite !shiftr_tag by lia.
  intros [= Htag Hidx].
  rewrite (Z.div_mod (Z.shiftr a b) (2 ^ s)) by lia.
  rewrite (Z.div_mod (Z.shiftr a' b) (2 ^ s)) by lia.
  by rewrite Htag, Hidx.
Qed.

Lemma decode_same_block_witness :
  decode 4 4 0x7ff0005c8 = decode 4 4 0x7ff0005cf ↔
  Z.shiftr 0x7ff0005c8 4 = Z.shiftr 0x7ff0005cf 4.
Proof. apply (decode_same_block 4 4); lia. Defined.

(** The tag, the set index and the offset in the block give the address
    back. *)
Theorem decode_recompose (s b a t idx : Z) :
  0 <= s <= 30 → 0 <= b → b + s <= 63 →
  decode s b a = Some (t, idx) →
  a = t * 2 ^ (b + s) + idx * 2 ^ b + a `mod` 2 ^ b ∧
  0 <= idx < 2 ^ s ∧ 0 <= a `mod` 2 ^ b < 2 ^ b.
Proof.
  intros Hs Hb Hbs. rewrite decode_defined by done.
  rewrite shiftr_tag, Z.shiftr_div_pow2 by lia. intros [= <- <-].
  split; [|split; apply Z.mod_pos_bound; lia].
  rewrite Z.pow_add_r by lia.
  pose proof (Z.div_mod a (2 ^ b)) as Ha.
  pose proof (Z.div_mod (a / 2 ^ b) (2 ^ s)) as Hq.
  assert (0 < 2 ^ b) by lia. assert (0 < 2 ^ s) by lia. nia.
Qed.

Lemma decode_recompose_witness :
  0x7ff0005c8 = 0x7ff0005 * 2 ^ (4 + 4) + 0xc * 2 ^ 4 + 0x7ff0005c8 `mod` 2 ^ 4
  ∧ 0 <= 0xc < 2 ^ 4 ∧ 0 <= 0x7ff0005c8 `mod` 2 ^ 4 < 2 ^ 4.
Proof.
  apply (decode_recompose 4 4 0x7ff0005c8 0x7ff0005 0xc);
    [lia..|reflexivity].
Defined.

(** ** Reachable states *)

Lemma reachable_wf s b E pre st :
  geometry_ok s b E → reachable s b E pre st → wf_cache s E st.1.
Proof.
  intros Hgeom. induction 1 as [|pre st r st' _ IH Hst].
  - by apply (make_cache_wf s b E).
  - by apply (step_wf s b E st r st').
Qed.

Lemma read_file_from_reachable s b E pre st trace :
  geometry_ok s b E → reachable s b E pre st →
  ∃ st', read_file s b trace st = Some st' ∧
         reachable s b E (pre ++ trace) st'.
Proof.
  intros Hgeom. revert pre st.
  induction trace as [|r trace IH]; intros pre st Hreach.
  { exists st. by rewrite app_nil_r. }
  destruct (process_line_step s b E Hgeom st r) as (st1 & Heq & Hst).
  { by eapply reachable_wf. }
  destruct (IH (pre ++ [r]) st1) as (st' & Hrun & Hreach').
  { by eapply reach_step. }
  exists st'. simpl. rewrite Heq. simpl.
  by rewrite <- app_assoc in Hreach'.
Qed.

Lemma read_file_reachable s b E trace st :
  geometry_ok s b E →
  read_file s b trace (init_state (2 ^ s) E) = Some st →
  reachable s b E trace st.
Proof.
  intros Hgeom Hrun.
  destruct (read_file_from_reachable s b E [] (init_state (2 ^ s) E) trace)
    as (st' & Hrun' & Hreach); [done|constructor|].
  simpl in Hreach. congruence.
Qed.

Lemma reachable_no_later_copies s b E pre st :
  reachable s b E pre st → Forall no_later_copy st.1.
Proof.
  induction 1 as [|pre st r st' _ IH Hst].
  - apply make_cache_no_later_copy.
  - eapply step_sets; [|done..]. intros. by eapply accessed_no_later_copy.
Qed.

Lemma reachable_lines_free_or_valid s b E pre st :
  reachable s b E pre st → Forall (Forall line_free_or_valid) st.1.
Proof.
  induction 1 as [|pre st r st' _ IH Hst].
  - apply make_cache_free_or_valid.
  - eapply step_sets; [|done..]. intros. by apply install_free_or_valid.
Qed.

(** ** Hits *)






(** ** What a trace line leaves alone *)


(** A trace line changes at most one line of one set, the set its address
    decodes to; the numbers of sets and of lines never change. *)
Theorem one_line_changes (s b E : Z) (st : state) (r : trace_line) (t idx : Z) :
  geometry_ok s b E → wf_cache s E st.1 →
  decode s b (address r) = Some (t, idx) →
  ∃ st', process_line s b st r = Some st' ∧
    length st'.1 = length st.1 ∧
    (∀ j, j ≠ Z.to_nat idx → st'.1 !! j = st.1 !! j) ∧
    ∃ i, ∀ lines, st.1 !! Z.to_nat idx = Some lines →
      ∃ lines', st'.1 !! Z.to_nat idx = Some lines' ∧
        length lines' = length lines ∧
        ∀ j, j ≠ i → lines' !! j = lines !! j.
Proof.
  intros Hgeom Hwf Hdec.
  destruct (process_line_step s b E Hgeom st r Hwf) as (st' & Heq & Hst).
  exists st'. split; [done|].
  destruct Hst as [t' idx' _ _|t' idx' lines k i Hdec' _ Hset _].
  - split; [done|]. split; [done|]. exists 0%nat. intros lines Hset.
    by exists lines.
  - assert (idx' = idx) as -> by congruence. simpl.
    split; [by rewrite length_insert|].
    split; [intros j Hj; by apply list_lookup_insert_ne|].
    exists i. intros lines0 Hset0.
    assert (lines0 = lines) as -> by congruence.
    eexists. split.
    { apply list_lookup_insert_eq. by eapply lookup_lt_Some. }
    split; [by rewrite length_insert|].
    intros j Hj. by apply list_lookup_insert_ne.
Qed.

Lemma one_line_changes_witness :
  ∃ st', process_line 1 1 (init_state (2 ^ 1) 2) (L 6) = Some st' ∧
    length st'.1 = length (init_state (2 ^ 1) 2).1 ∧
    (∀ j, j ≠ Z.to_nat 1 → st'.1 !! j = (init_state (2 ^ 1) 2).1 !! j) ∧
    ∃ i, ∀ lines, (init_state (2 ^ 1) 2).1 !! Z.to_nat 1 = Some lines →
      ∃ lines', st'.1 !! Z.to_nat 1 = Some lines' ∧
        length lines' = length lines ∧
        ∀ j, j ≠ i → lines' !! j = lines !! j.
Proof.
  apply (one_line_changes 1 1 2 (init_state (2 ^ 1) 2) (L 6) 1 1).
  - unfold geometry_ok. lia.
  - split; [reflexivity|]. repeat constructor.
  - reflexivity.
Defined.




(** ** Evictions need more tags than lines *)

Lemma distinct_at_least (l k : list Z) :
  NoDup l → (∀ x, x ∈ l → x ∈ k) →
  (length l ≤ length (remove_dups k))%nat.
Proof.
  intros Hnd Hsub. apply submseteq_length, NoDup_submseteq; [done|].
  intros x Hx. by apply elem_of_remove_dups, Hsub.
Qed.

Lemma tags_to_set_app s b idx pre trace :
  tags_to_set s b idx (pre ++ trace) =
    tags_to_set s b idx pre ++ tags_to_set s b idx trace.
Proof.
  induction pre as [|r pre IH]; simpl; [done|].
  destruct (decode s b (address r)) as [[t i]|]; [|done].
  destruct (is_data (instruct r) && (i =? idx)); simpl; by rewrite IH.
Qed.

Lemma tags_to_set_last s b pre r t idx :
  is_data (instruct r) = true → decode s b (address r) = Some (t, idx) →
  t ∈ tags_to_set s b idx (pre ++ [r]).
Proof.
  intros Hdata Hdec. rewrite tags_to_set_app, elem_of_app. right.
  simpl. rewrite Hdec, Hdata, Z.eqb_refl. simpl. by left.
Qed.

(** A valid line holds a tag that some data line of the trace brought to
    its set. *)
Lemma reachable_history s b E pre st :
  geometry_ok s b E → reachable s b E pre st →
  ∀ idx lines j l,
    st.1 !! idx = Some lines → lines !! j = Some l → valid_bit l = 1 →
    tag l ∈ tags_to_set s b (Z.of_nat idx) pre.
Proof.
  intros Hgeom. pose proof Hgeom as (Hs & Hb & Hbs & _).
  induction 1 as [|pre st r st' Hreach IH Hst]; intros idx lines j l.
  - intros Hset Hj Hv. unfold init_state, make_cache in Hset. simpl in Hset.
    apply lookup_replicate in Hset as [-> _].
    apply lookup_replicate in Hj as [-> _]. done.
  - rewrite tags_to_set_app, elem_of_app.
    destruct Hst as [t i _ _|t i lines0 k slot Hdec Hdata Hset0 Hacc].
    { intros. left. by eapply IH. }
    simpl. intros Hset Hj Hv.
    pose proof (decode_index_bound s b _ _ _ Hs Hb Hbs Hdec) as Hi.
    apply list_lookup_insert_Some in Hset as [(<- & <- & _)|[Hne Hset]].
    + apply list_lookup_insert_Some in Hj as [(<- & <- & _)|[Hne Hj]].
      * right. simpl. rewrite Hdec, Hdata, Z2Nat.id, Z.eqb_refl by lia.
        simpl. by left.
      * left. by eapply IH.
    + left. by eapply IH.
Qed.

Lemma valid_tags_NoDup lines :
  no_duplicate_tags lines → Forall (λ l, valid_bit l = 1) lines →
  NoDup (tag <$> lines).
Proof.
  intros Hnd Hvalid. apply NoDup_alt. intros i j x.
  rewrite !list_lookup_fmap.
  destruct (lines !! i) as [li|] eqn:Hi; [|done].
  destruct (lines !! j) as [lj|] eqn:Hj; [|done].
  intros [= <-] [= Htag].
  apply (Hnd i j li lj); try done.
  - by eapply (Forall_lookup_1 _ _ _ _ Hvalid).
  - by eapply (Forall_lookup_1 _ _ _ _ Hvalid).
Qed.

(** An eviction happens in a full set of valid lines with distinct tags,
    for one tag more. *)
Lemma evicted_needs_tags s b E pre st r t idx lines m :
  geometry_ok s b E → reachable s b E pre st →
  decode s b (address r) = Some (t, idx) →
  is_data (instruct r) = true →
  st.1 !! Z.to_nat idx = Some lines →
  accessed t lines Evicted m →
  E < Z.of_nat (length (remove_dups (tags_to_set s b idx (pre ++ [r])))).
Proof.
  intros Hgeom Hreach Hdec Hdata Hset Hacc.
  inversion Hacc as [| | |m' Hnotag Hnofree _]; subst.
  pose proof Hgeom as (Hs & Hb & Hbs & _).
  pose proof (decode_index_bound s b _ _ _ Hs Hb Hbs Hdec) as Hidx.
  pose proof (reachable_wf _ _ _ _ _ Hgeom Hreach) as [_ Hlen].
  pose proof (Forall_lookup_1 _ _ _ _ Hlen Hset) as HE. simpl in HE.
  pose proof (Forall_lookup_1 _ _ _ _
    (reachable_no_later_copies _ _ _ _ _ Hreach) Hset) as Hcopy.
  pose proof (Forall_lookup_1 _ _ _ _
    (reachable_lines_free_or_valid _ _ _ _ _ Hreach) Hset) as Hfv.
  rewrite list_find_None in Hnotag, Hnofree.
  assert (Forall (λ l, valid_bit l = 1) lines) as Hvalid.
  { rewrite Forall_forall in Hfv, Hnofree. apply Forall_forall.
    intros l Hl. destruct (Hfv l Hl) as [?|[_ ?]]; [done|].
    by destruct (Hnofree l Hl). }
  assert (NoDup (t :: (tag <$> lines))) as Hnd.
  { apply NoDup_cons. split.
    - intros (l & -> & Hl)%list_elem_of_fmap.
      rewrite Forall_forall in Hnotag. by destruct (Hnotag l Hl).
    - apply valid_tags_NoDup; [|done].
      by apply no_later_copy_no_duplicate. }
  apply (distinct_at_least _ (tags_to_set s b idx (pre ++ [r]))) in Hnd.
  { simpl in Hnd. rewrite length_fmap in Hnd. lia. }
  intros x [->|(l & -> & Hl)%list_elem_of_fmap]%elem_of_cons.
  - by apply tags_to_set_last.
  - rewrite tags_to_set_app, elem_of_app. left.
    apply list_elem_of_lookup in Hl as [j Hj].
    rewrite <- (Z2Nat.id idx) by lia.
    eapply (reachable_history s b E pre st); try done.
    by eapply (Forall_lookup_1 _ _ _ _ Hvalid).
Qed.

Lemma reachable_evictions s b E pre st :
  geometry_ok s b E → reachable s b E pre st →
  eviction_count st.2 = 0 ∨
  ∃ idx, 0 <= idx < 2 ^ s ∧
    E < Z.of_nat (length (remove_dups (tags_to_set s b idx pre))).
Proof.
  intros Hgeom. pose proof Hgeom as (Hs & Hb & Hbs & _).
  induction 1 as [|pre st r st' Hreach IH Hst]; [by left|].
  assert (∀ idx,
    (length (remove_dups (tags_to_set s b idx pre))
     ≤ length (remove_dups (tags_to_set s b idx (pre ++ [r]))))%nat)
    as Hmono.
  { intros idx. apply distinct_at_least; [apply NoDup_remove_dups|].
    intros x Hx. rewrite elem_of_remove_dups in Hx.
    rewrite tags_to_set_app, elem_of_app. by left. }
  assert (eviction_count st'.2 = eviction_count st.2 ∨
          ∃ idx, 0 <= idx < 2 ^ s ∧
            E < Z.of_nat (length (remove_dups
                                    (tags_to_set s b idx (pre ++ [r])))))
    as [Hsame|Hmore]; [|destruct IH as [IH|(idx & Hidx & IH)]|by right].
  - destruct Hst as [t i _ _|t i lines k slot Hdec Hdata Hset Hacc];
      [by left|].
    destruct k; simpl; unfold modify_credit;
      try (left; by destruct (Ascii.eqb (instruct r) "M")).
    right. exists i. split.
    + by eapply decode_index_bound.
    + by eapply evicted_needs_tags.
  - left. lia.
  - right. exists idx. split; [done|]. specialize (Hmono idx). lia.
Qed.

(** While no set is asked to hold more than [E] distinct tags, nothing is
    evicted. *)
Theorem no_eviction_while_tags_fit (s b E : Z) (trace : list trace_line) :
  geometry_ok s b E → fits s b E trace = true →
  ∃ st, read_file s b trace (init_state (2 ^ s) E) = Some st ∧
        eviction_count st.2 = 0.
Proof.
  intros Hgeom Hfits.
  destruct (read_file_from_reachable s b E [] (init_state (2 ^ s) E) trace)
    as (st & Hrun & Hreach); [done|constructor|].
  exists st. split; [done|]. simpl in Hreach.
  destruct (reachable_evictions _ _ _ _ _ Hgeom Hreach)
    as [?|(idx & Hidx & Hmore)]; [done|].
  unfold fits in Hfits. rewrite forallb_forall in Hfits.
  specialize (Hfits idx). rewrite <- list_elem_of_In, elem_of_seqZ in Hfits.
  specialize (Hfits ltac:(lia)). lia.
Qed.

Lemma no_eviction_while_tags_fit_witness :
  ∃ st, read_file 1 1 [L 0; L 4; M 2; L 0; St 5; I 8; L 4; L 10]
          (init_state (2 ^ 1) 2) = Some st ∧
        eviction_count st.2 = 0.
Proof.
  apply (no_eviction_while_tags_fit 1 1 2).
  - unfold geometry_ok. lia.
  - reflexivity.
Defined.

(** ** The timer and the valid lines *)

Lemma reachable_timer s b E pre st :
  reachable s b E pre st →
  global_timer st.2 = Z.of_nat (length pre) `mod` ULL_MOD.
Proof.
  induction 1 as [|pre st r st' _ IH Hst]; [done|].
  apply step_counters in Hst as (_ & _ & ->). rewrite IH. unfold ull_incr.
  rewrite Z.add_mod_idemp_l by (unfold ULL_MOD; lia).
  rewrite length_app. simpl. f_equal. lia.
Qed.

(** [global_timer] is the number of lines read so far, instruction lines
    included, modulo 2^64. *)
Theorem timer_counts_lines (s b E : Z) (trace : list trace_line) :
  geometry_ok s b E →
  ∃ st, read_file s b trace (init_state (2 ^ s) E) = Some st ∧
        global_timer st.2 = Z.of_nat (length trace) `mod` 2 ^ 64.
Proof.
  intros Hgeom.
  destruct (read_file_from_reachable s b E [] (init_state (2 ^ s) E) trace)
    as (st & Hrun & Hreach); [done|constructor|].
  exists st. split; [done|]. by apply reachable_timer in Hreach.
Qed.

Lemma timer_counts_lines_witness :
  ∃ st, read_file 1 1 [I 0; L 0; I 4; M 8] (init_state (2 ^ 1) 1) = Some st ∧
        global_timer st.2 = Z.of_nat 4 `mod` 2 ^ 64.
Proof.
  apply (timer_counts_lines 1 1 1 [I 0; L 0; I 4; M 8]).
  unfold geometry_ok. lia.
Defined.

Lemma reachable_sentinel s b E pre st :
  reachable s b E pre st → Z.of_nat (length pre) < ULL_MOD →
  Forall (Forall sentinel_exact) st.1.
Proof.
  induction 1 as [|pre st r st' Hreach IH Hst]; intros Hlen.
  { apply make_cache_sentinel_exact. }
  rewrite length_app in Hlen. simpl in Hlen.
  eapply step_sets; [|apply IH; lia|done].
  intros. apply install_sentinel_exact; [|done].
  rewrite (reachable_timer _ _ _ _ _ Hreach). unfold ull_incr.
  rewrite Z.add_mod_idemp_l by (unfold ULL_MOD; lia).
  rewrite Z.mod_small; lia.
Qed.

Lemma valid_lines_insert lines i l x :
  lines !! i = Some l →
  valid_lines (<[i := x]> lines) =
    valid_lines lines - (if valid_bit l =? 1 then 1 else 0)
    + (if valid_bit x =? 1 then 1 else 0).
Proof.
  revert i. induction lines as [|l0 lines IH]; intros [|i] Hi;
    simplify_eq/=; [lia|].
  rewrite (IH i Hi). lia.
Qed.

Lemma valid_in_cache_insert (c : cache_t) i lines lines' :
  c !! i = Some lines →
  valid_in_cache (<[i := lines']> c) =
    valid_in_cache c - valid_lines lines + valid_lines lines'.
Proof.
  revert i. induction c as [|l0 c IH]; intros [|i] Hi; simplify_eq/=; [lia|].
  rewrite (IH i Hi). lia.
Qed.

Lemma valid_lines_bound lines :
  0 <= valid_lines lines <= Z.of_nat (length lines).
Proof.
  induction lines as [|l lines IH]; simpl; [lia|].
  destruct (valid_bit l =? 1); lia.
Qed.

Lemma valid_in_cache_bound (c : cache_t) E :
  0 <= E → Forall (λ lines, Z.of_nat (length lines) = E) c →
  0 <= valid_in_cache c <= Z.of_nat (length c) * E.
Proof.
  intros HE. induction 1 as [|lines c Hlen _ IH]; simpl; [lia|].
  pose proof (valid_lines_bound lines). lia.
Qed.

(** The slot an access writes was valid before for a hit and an eviction,
    and was not for the two kinds of fill. *)
Lemma accessed_slot_validity t lines k i :
  Forall sentinel_exact lines → accessed t lines k i →
  ∃ l, lines !! i = Some l ∧
    (if valid_bit l =? 1 then 1 else 0) =
      match k with Hit | Evicted => 1 | Revalidated | Filled => 0 end.
Proof.
  intros Hinv [i' l Hf Hv|i' l Hf Hv|i' l _ Hf|m _ Hn (lm & Hm & _)].
  - apply list_find_Some in Hf as (Hl & _). exists l. by rewrite Hv.
  - apply list_find_Some in Hf as (Hl & _). exists l. split; [done|].
    by apply Z.eqb_neq in Hv as ->.
  - apply list_find_Some in Hf as (Hl & Hlru & _). exists l. split; [done|].
    destruct (Forall_lookup_1 _ _ _ _ Hinv Hl) as [[_ ?]|[-> _]]; done.
  - exists lm. split; [done|].
    rewrite list_find_None, Forall_lookup in Hn.
    destruct (Forall_lookup_1 _ _ _ _ Hinv Hm) as [[-> _]|[_ ?]]; [done|].
    by destruct (Hn _ _ Hm).
Qed.

Lemma make_cache_no_valid_line nsets E :
  valid_in_cache (make_cache nsets E) = 0.
Proof.
  unfold make_cache.
  assert (valid_lines (replicate (Z.to_nat E) (CacheLine 0 0 0)) = 0) as Hset.
  { induction (Z.to_nat E) as [|m IHm]; simpl; [done|]. by rewrite IHm. }
  induction (Z.to_nat nsets) as [|n IHn]; simpl; [done|].
  by rewrite IHn, Hset.
Qed.

Lemma reachable_valid_lines s b E pre st :
  reachable s b E pre st → Z.of_nat (length pre) < ULL_MOD →
  valid_in_cache st.1 = miss_count st.2 - eviction_count st.2.
Proof.
  induction 1 as [|pre st r st' Hreach IH Hst]; intros Hlen.
  { apply make_cache_no_valid_line. }
  rewrite length_app in Hlen. simpl in Hlen.
  specialize (IH ltac:(lia)).
  pose proof (reachable_sentinel _ _ _ _ _ Hreach ltac:(lia)) as Hsent.
  destruct Hst as [t i _ _|t i lines k slot _ _ Hset Hacc]; [done|].
  destruct (accessed_slot_validity t lines k slot) as (l & Hl & Hw);
    [by eapply (Forall_lookup_1 _ _ _ _ Hsent)|done|].
  simpl. rewrite (valid_in_cache_insert _ _ _ _ Hset).
  rewrite (valid_lines_insert _ _ _ _ Hl), Hw. simpl.
  unfold modify_credit.
  destruct (Ascii.eqb (instruct r) "M"), k; simpl; lia.
Qed.

(** ** The stamps are the history: least recently used *)

Lemma last_use_snoc s b key pre r :
  last_use s b key (pre ++ [r]) =
    if uses s b key r then S (length pre) else last_use s b key pre.
Proof.
  induction pre as [|x pre IH]; simpl.
  { by destruct (uses s b key r). }
  rewrite IH. by destruct (uses s b key r).
Qed.

(** A trace line is the last use of one block only. *)
Lemma last_use_inj s b key key' trace :
  last_use s b key trace = last_use s b key' trace →
  last_use s b key trace ≠ 0%nat → key = key'.
Proof.
  induction trace as [|r trace IH]; simpl; [done|].
  destruct (last_use s b key trace) as [|n] eqn:Hk,
           (last_use s b key' trace) as [|n'] eqn:Hk'.
  - unfold uses.
    destruct (is_data (instruct r)); simpl; [|done].
    repeat case_bool_decide; try done. congruence.
  - by destruct (uses s b key r).
  - by destruct (uses s b key' r).
  - intros [= ->] _. by apply IH.
Qed.

Lemma accessed_other_valid t lines k i j l :
  no_later_copy lines → accessed t lines k i →
  lines !! j = Some l → j ≠ i → valid_bit l = 1 → tag l ≠ t.
Proof.
  intros Hcopy Hacc Hj Hne Hv Ht.
  destruct (accessed_slot _ _ _ _ Hacc) as [_ Hbefore].
  destruct (lt_eq_lt_dec j i) as [[Hlt|?]|Hlt]; [|done|].
  - by destruct (Hbefore _ _ Hj Hlt).
  - destruct (accessed_tag_cases _ _ _ _ Hacc) as [(li & Hi & Hti)|Hnone].
    + destruct (Hcopy i j li l); [done..|congruence|done].
    + by destruct (Hnone _ _ Hj).
Qed.

Lemma reachable_stamps s b E pre st :
  geometry_ok s b E → reachable s b E pre st →
  Z.of_nat (length pre) < ULL_MOD →
  ∀ idx lines j l,
    st.1 !! idx = Some lines → lines !! j = Some l → valid_bit l = 1 →
    lru l = Z.of_nat (last_use s b (tag l, Z.of_nat idx) pre).
Proof.
  intros Hgeom. pose proof Hgeom as (Hs & Hb & Hbs & _).
  induction 1 as [|pre st r st' Hreach IH Hst]; intros Hlen idx lines j l.
  { intros Hset Hj Hv. unfold init_state, make_cache in Hset. simpl in Hset.
    apply lookup_replicate in Hset as [-> _].
    apply lookup_replicate in Hj as [-> _]. done. }
  rewrite length_app in Hlen. simpl in Hlen.
  specialize (IH ltac:(lia)). rewrite last_use_snoc.
  pose proof (reachable_timer _ _ _ _ _ Hreach) as Htimer.
  rewrite Z.mod_small in Htimer by lia.
  destruct Hst as [t i _ Hdata|t i lines0 k slot Hdec Hdata Hset0 Hacc].
  { unfold uses. rewrite Hdata. simpl. apply IH. }
  pose proof (decode_index_bound s b _ _ _ Hs Hb Hbs Hdec) as Hi.
  pose proof (Forall_lookup_1 _ _ _ _
    (reachable_no_later_copies _ _ _ _ _ Hreach) Hset0) as Hcopy.
  simpl. intros Hset Hj Hv. unfold uses. rewrite Hdata, Hdec. simpl.
  apply list_lookup_insert_Some in Hset as [(<- & <- & _)|[Hne Hset]].
  - rewrite Z2Nat.id by lia.
    apply list_lookup_insert_Some in Hj as [(<- & <- & _)|[Hne Hj]].
    + simpl. rewrite bool_decide_eq_true_2 by done.
      rewrite Htimer. unfold ull_incr. rewrite Z.mod_small; lia.
    + rewrite bool_decide_eq_false_2.
      * rewrite <- (Z2Nat.id i) at 1 by lia. by eapply IH.
      * intros [= Ht]. by eapply (accessed_other_valid t lines0 k slot j l).
  - rewrite bool_decide_eq_false_2; [by eapply IH|].
    intros [= _ Hidx]. lia.
Qed.

(** Short of 2^64 lines, the [lru] of a valid line is the number of the
    last trace line that accessed its block. *)
Theorem stamp_is_last_use (s b E : Z) (trace : list trace_line) :
  geometry_ok s b E → Z.of_nat (length trace) < 2 ^ 64 →
  ∃ st, read_file s b trace (init_state (2 ^ s) E) = Some st ∧
    ∀ idx lines j l,
      st.1 !! idx = Some lines → lines !! j = Some l → valid_bit l = 1 →
      lru l = Z.of_nat (last_use s b (tag l, Z.of_nat idx) trace).
Proof.
  intros Hgeom Hlen.
  destruct (read_file_from_reachable s b E [] (init_state (2 ^ s) E) trace)
    as (st & Hrun & Hreach); [done|constructor|].
  exists st. split; [done|]. by apply (reachable_stamps s b E).
Qed.

Lemma stamp_is_last_use_witness :
  ∃ st, read_file 1 1 [L 0; L 8; I 0; M 0; L 2] (init_state (2 ^ 1) 2)
          = Some st ∧
    ∀ idx lines j l,
      st.1 !! idx = Some lines → lines !! j = Some l → valid_bit l = 1 →
      lru l = Z.of_nat (last_use 1 1 (tag l, Z.of_nat idx)
                          [L 0; L 8; I 0; M 0; L 2]).
Proof.
  apply (stamp_is_last_use 1 1 2 [L 0; L 8; I 0; M 0; L 2]).
  - unfold geometry_ok. lia.
  - simpl. lia.
Defined.

(** Short of 2^64 lines, the line an eviction replaces holds the block of
    the set whose last access is the oldest: every other line of the set
    was accessed strictly later. *)
Theorem victim_is_least_recently_used (s b E : Z) (trace : list trace_line)
    (st : state) (r : trace_line) (t idx : Z) (lines : list cache_line) :
  geometry_ok s b E → Z.of_nat (length trace) < 2 ^ 64 →
  read_file s b trace (init_state (2 ^ s) E) = Some st →
  is_data (instruct r) = true →
  decode s b (address r) = Some (t, idx) →
  st.1 !! Z.to_nat idx = Some lines →
  resident t lines = false → has_free_slot lines = false →
  ∃ st' m lm,
    process_line s b st r = Some st' ∧
    lines !! m = Some lm ∧
    st'.1 = <[Z.to_nat idx :=
               <[m := CacheLine 1 (ull_incr (global_timer st.2)) t]> lines]>
              st.1 ∧
    ∀ j l, lines !! j = Some l → j ≠ m →
      (0 < last_use s b (tag lm, idx) trace
         < last_use s b (tag l, idx) trace)%nat.
Proof.
  intros Hgeom Hlen Hrun Hdata Hdec Hset Hres Hfree.
  pose proof Hgeom as (Hs & Hb & Hbs & _).
  pose proof (decode_index_bound s b _ _ _ Hs Hb Hbs Hdec) as Hidx.
  pose proof (read_file_reachable _ _ _ _ _ Hgeom Hrun) as Hreach.
  pose proof (reachable_wf _ _ _ _ _ Hgeom Hreach) as Hwf.
  pose proof (Forall_lookup_1 _ _ _ _
    (reachable_lines_free_or_valid _ _ _ _ _ Hreach) Hset) as Hfv.
  pose proof (Forall_lookup_1 _ _ _ _
    (reachable_no_later_copies _ _ _ _ _ Hreach) Hset) as Hcopy.
  pose proof (has_free_slot_false _ Hfree) as Hnofree.
  destruct (process_line_data s b st r t idx lines)
    as (k & m & Hacc & Heq); [done..|by eapply wf_cache_set|].
  destruct (accessed_evicted t lines k m) as [-> (lm & Hm & Hmin)];
    [by apply resident_false|done..|].
  assert (∀ j l, lines !! j = Some l →
            valid_bit l = 1 ∧
            lru l = Z.of_nat (last_use s b (tag l, idx) trace) ∧ lru l ≠ 0)
    as Hstamp.
  { intros j l Hj. rewrite list_find_None, Forall_lookup in Hnofree.
    pose proof (Hnofree _ _ Hj) as Hlru.
    destruct (Forall_lookup_1 _ _ _ _ Hfv Hj) as [Hv|[_ ?]]; [|done].
    split; [done|]. split; [|done].
    rewrite <- (Z2Nat.id idx) at 1 by lia.
    by eapply (reachable_stamps s b E trace st). }
  eexists _, m, lm. split; [exact Heq|]. split; [done|]. split; [done|].
  intros j l Hj Hne.
  destruct (Hstamp _ _ Hm) as (Hvm & Hlm & Hlm0).
  destruct (Hstamp _ _ Hj) as (Hvj & Hlj & Hlj0).
  destruct (Hmin _ _ Hj) as [Hle _].
  assert (last_use s b (tag lm, idx) trace
          ≠ last_use s b (tag l, idx) trace) as Hdiff.
  { intros Hsame. apply last_use_inj in Hsame; [|lia].
    injection Hsame as Htag.
    destruct Hne. symmetry.
    by apply (no_later_copy_no_duplicate lines Hcopy m j lm l). }
  lia.
Qed.

Lemma victim_is_least_recently_used_witness :
  ∃ st' m lm,
    process_line 1 1
      ([[CacheLine 1 3 0; CacheLine 1 2 2];
        [CacheLine 0 0 0; CacheLine 0 0 0]], Globals 2 1 0 3) (L 16)
      = Some st' ∧
    [CacheLine 1 3 0; CacheLine 1 2 2] !! m = Some lm ∧
    st'.1 = <[Z.to_nat 0 :=
               <[m := CacheLine 1 (ull_incr 3) 4]>
                 [CacheLine 1 3 0; CacheLine 1 2 2]]>
              [[CacheLine 1 3 0; CacheLine 1 2 2];
               [CacheLine 0 0 0; CacheLine 0 0 0]] ∧
    ∀ j l, [CacheLine 1 3 0; CacheLine 1 2 2] !! j = Some l → j ≠ m →
      (0 < last_use 1 1 (tag lm, 0%Z) [L 0%Z; L 8%Z; L 0%Z]
         < last_use 1 1 (tag l, 0%Z) [L 0%Z; L 8%Z; L 0%Z])%nat.
Proof.
  apply (victim_is_least_recently_used 1 1 2 [L 0; L 8; L 0]
           ([[CacheLine 1 3 0; CacheLine 1 2 2];
             [CacheLine 0 0 0; CacheLine 0 0 0]], Globals 2 1 0 3)
           (L 16) 4 0 [CacheLine 1 3 0; CacheLine 1 2 2]).
  - unfold geometry_ok. lia.
  - simpl. lia.
  - reflexivity.
  - reflexivity.
  - reflexivity.
  - reflexivity.
  - reflexivity.
  - reflexivity.
Defined.

(** ** The command line *)

Section command_line.
Context (atoi : string → Z) (fopen : string → option (list trace_line)).

Lemma parse_options_stops results o :
  existsb (λ ca, negb (sets_global ca.1)) results = true →
  parse_options atoi results o = inr (Usage false 0).
Proof.
  revert o. induction results as [|[c a] results IH]; intros o; [done|].
  simpl. unfold sets_global.
  destruct (Ascii.eqb c "s"); [apply IH|].
  destruct (Ascii.eqb c "E"); [apply IH|].
  destruct (Ascii.eqb c "b"); [apply IH|].
  destruct (Ascii.eqb c "t"); [apply IH|].
  destruct (Ascii.eqb c "v"); [apply IH|].
  by destruct (Ascii.eqb c "h").
Qed.

Lemma parse_options_usage results o out :
  parse_options atoi results o = inr out → out = Usage false 0.
Proof.
  revert o. induction results as [|[c a] results IH]; intros o; [done|].
  simpl. repeat (case_match; [by apply IH|]).
  case_match; by intros [= <-].
Qed.

(** [-h], or any option that [getopt] rejects, anywhere on the command
    line ends [main] with the usage and exit status 0, before any check of
    the other options. *)
Theorem help_or_unknown_option (results : list (ascii * string)) :
  existsb (λ ca, negb (sets_global ca.1)) results = true →
  main_argv atoi fopen results = Usage false 0.
Proof.
  intros Hstop. unfold main_argv. by rewrite parse_options_stops.
Qed.

(** C5 (as amended): on a command line where [getopt] returns only the
    options s, E, b, t and v, when [s], [E] or [b] is left 0, or no trace
    file is named, [main] prints the missing-argument message and the
    usage and exits before the cache is built, whether or not the file
    opens; every non-zero geometry, negative values included, passes the
    check and, with a file that opens, is never answered with the usage.
    With [-h] or an option that [getopt] rejects, [main] prints the usage
    alone and exits before the check. *)
Theorem main_argv_rejects_zero (results : list (ascii * string)) :
  (∀ o, parse_options atoi results Opt.initial = inl o →
     (Opt.s o = 0 ∨ Opt.E o = 0 ∨ Opt.b o = 0 ∨ Opt.trace_file o = None →
      main_argv atoi fopen results = printUsage true) ∧
     (Opt.s o ≠ 0 → Opt.E o ≠ 0 → Opt.b o ≠ 0 →
      ∀ file trace, Opt.trace_file o = Some file → fopen file = Some trace →
      ∀ m status, main_argv atoi fopen results ≠ Usage m status)) ∧
  (∀ out, parse_options atoi results Opt.initial = inr out →
     main_argv atoi fopen results = printUsage false).
Proof.
  split.
  - intros o Hparse. unfold main_argv. rewrite Hparse. split.
    + intros Hzero.
      destruct (Opt.trace_file o) as [file|] eqn:Hfile.
      * assert (Opt.s o = 0 ∨ Opt.E o = 0 ∨ Opt.b o = 0) as Hgeom
          by (destruct Hzero as [?|[?|[?|?]]]; [tauto..|done]).
        destruct (fopen file) as [trace|].
        -- apply main_zero_check. tauto.
        -- by rewrite (proj1 (main_zero_check (Opt.s o) (Opt.E o) (Opt.b o)
                                  (Some []))) by tauto.
      * by apply main_zero_check; auto.
    + intros Hs HE Hb file trace -> -> m status.
      by apply main_zero_check.
  - intros out Hparse. unfold main_argv. rewrite Hparse.
    by apply parse_options_usage in Hparse as ->.
Qed.


End command_line.

Lemma main_argv_rejects_zero_witness :
  main_argv (λ a, if String.eqb a "0" then 0 else 4) (λ _, Some [L 0])
    [("s"%char, "0"%string); ("E"%char, "1"%string);
     ("b"%char, "4"%string); ("t"%char, "t.trace"%string)]
  = printUsage true.
Proof.
  destruct (main_argv_rejects_zero
              (λ a, if String.eqb a "0" then 0 else 4) (λ _, Some [L 0])
              [("s"%char, "0"%string); ("E"%char, "1"%string);
               ("b"%char, "4"%string); ("t"%char, "t.trace"%string)])
    as [Hcheck _].
  destruct (Hcheck (Opt.Make 0 0 4 4 (Some "t.trace"%string)) eq_refl)
    as [Hzero _].
  apply Hzero. left. reflexivity.
Defined.

(** C5 (as stated) fails: [-E -1] is below 1, yet [main] builds the cache,
    reads the trace and prints the summary. *)
Lemma main_argv_accepts_negative :
  -1 < 1 ∧
  main_argv (λ a, if String.eqb a "-1" then -1 else 4) (λ _, Some [I 0])
    [("s"%char, "4"%string); ("E"%char, "-1"%string);
     ("b"%char, "4"%string); ("t"%char, "t.trace"%string)]
  = Summary 0 0 0.
Proof. split; [lia|]. vm_compute. reflexivity. Qed.

Lemma help_or_unknown_option_witness :
  main_argv (λ _, 4) (λ _, Some [L 0])
    [("s"%char, "4"%string); ("?"%char, ""%string); ("E"%char, "1"%string)]
  = Usage false 0.
Proof.
  apply (help_or_unknown_option (λ _, 4) (λ _, Some [L 0])). reflexivity.
Defined.


(** ** Instruction lines do not matter *)

Lemma last_use_le s b key trace :
  (last_use s b key trace ≤ length trace)%nat.
Proof.
  induction trace as [|r trace IH]; simpl; [done|].
  destruct (last_use s b key trace); [|lia].
  destruct (uses s b key r); lia.
Qed.

Lemma data_lines_app pre trace :
  data_lines (pre ++ trace) = data_lines pre ++ data_lines trace.
Proof.
  induction pre as [|r pre IH]; simpl; [done|].
  destruct (is_data (instruct r)); simpl; by rewrite IH.
Qed.

Lemma data_lines_length trace :
  (length (data_lines trace) ≤ length trace)%nat.
Proof.
  induction trace as [|r trace IH]; simpl; [done|].
  destruct (is_data (instruct r)); simpl; lia.
Qed.

(** Dropping the other lines keeps the order of the last uses. *)
Lemma last_use_data_order s b k1 k2 trace :
  (last_use s b k1 trace < last_use s b k2 trace ↔
   last_use s b k1 (data_lines trace) < last_use s b k2 (data_lines trace))%nat.
Proof.
  induction trace as [|r trace IH] using rev_ind; [done|].
  rewrite data_lines_app, last_use_snoc. simpl.
  rewrite (last_use_snoc s b k2 trace r).
  pose proof (last_use_le s b k1 trace).
  pose proof (last_use_le s b k2 trace).
  pose proof (last_use_le s b k1 (data_lines trace)).
  pose proof (last_use_le s b k2 (data_lines trace)).
  destruct (is_data (instruct r)) eqn:Hdata.
  - rewrite !last_use_snoc.
    destruct (uses s b k1 r), (uses s b k2 r); [lia..|done].
  - unfold uses. rewrite Hdata, app_nil_r. simpl. done.
Qed.

Lemma list_find_alike (P Q : cache_line → Prop)
    `{!∀ x, Decision (P x)} `{!∀ x, Decision (Q x)} lines lines' :
  Forall2 alike lines lines' →
  (∀ l l', alike l l' → P l ↔ Q l') →
  (list_find P lines = None ∧ list_find Q lines' = None) ∨
  (∃ i l l', list_find P lines = Some (i, l) ∧
             list_find Q lines' = Some (i, l') ∧ alike l l').
Proof.
  intros Hall HPQ. induction Hall as [|l l' lines lines' Hl _ IH]; simpl.
  { by left. }
  pose proof (HPQ l l' Hl) as Hiff.
  destruct (decide (P l)), (decide (Q l')); try tauto.
  - right. by exists 0%nat, l, l'.
  - destruct IH as [[-> ->]|(i & x & y & -> & -> & Hxy)]; [by left|].
    right. by exists (S i), x, y.
Qed.

Lemma first_min_alike lines lines' m :
  Forall2 alike lines lines' →
  (∀ i j li lj li' lj',
     lines !! i = Some li → lines !! j = Some lj →
     lines' !! i = Some li' → lines' !! j = Some lj' →
     lru li < lru lj ↔ lru li' < lru lj') →
  first_min lines m → first_min lines' m.
Proof.
  intros Hall Horder (lm & Hm & Hmin).
  destruct (Forall2_lookup_l _ _ _ _ _ Hall Hm) as (lm' & Hm' & _).
  exists lm'. split; [done|]. intros j l' Hj'.
  destruct (Forall2_lookup_r _ _ _ _ _ Hall Hj') as (l & Hj & _).
  destruct (Hmin _ _ Hj) as [Hle Hlt].
  pose proof (Horder j m l lm l' lm' Hj Hm Hj' Hm').
  pose proof (Horder m j lm l lm' l' Hm Hj Hm' Hj').
  split; [lia|]. intros Hjm. specialize (Hlt Hjm). lia.
Qed.

(** On two sets that hold the same blocks in the same slots, with stamps
    in the same order when none is 0, an access does the same thing. *)
Lemma accessed_alike t lines lines' k i :
  Forall2 alike lines lines' →
  (list_find (λ l, lru l = 0) lines = None →
   ∀ m, first_min lines m → first_min lines' m) →
  accessed t lines k i → accessed t lines' k i.
Proof.
  intros Hall Hmin Hacc.
  destruct (list_find_alike (λ l, tag l = t) (λ l, tag l = t) _ _ Hall)
    as [[Hn Hn']|(j & x & y & Hf & Hf' & Hxy)].
  { by intros l l' (_ & -> & _). }
  - destruct (list_find_alike (λ l, lru l = 0) (λ l, lru l = 0) _ _ Hall)
      as [[Hz Hz']|(j & x & y & Hz & Hz' & Hxy)].
    { by intros l l' (_ & _ & ?). }
    + destruct Hacc as [? ? Hf _|? ? Hf _|? ? _ Hf|m _ _ Hm];
        [congruence..|].
      apply acc_evicted; [done..|]. by apply Hmin.
    + destruct Hacc as [? ? Hf _|? ? Hf _|? ? _ Hf|m _ Hf _];
        [congruence..| |congruence].
      assert (i = j) as -> by congruence. by eapply acc_filled.
  - destruct Hxy as (Hv & _).
    destruct Hacc as [? ? Hg Hvx|? ? Hg Hvx|? ? Hg _|m Hg _ _];
      [| |congruence..].
    + assert (i = j ∧ l = x) as [-> ->] by (split; congruence).
      eapply acc_hit; [done|]. congruence.
    + assert (i = j ∧ l = x) as [-> ->] by (split; congruence).
      eapply acc_revalidated; [done|]. congruence.
Qed.

Lemma accessed_functional t lines k i k' i' :
  accessed t lines k i → accessed t lines k' i' → k = k' ∧ i = i'.
Proof.
  intros [? l Hf Hv|? l Hf Hv|? l Hn Hf|m Hn Hz Hm]
         [? l' Hf' Hv'|? l' Hf' Hv'|? l' Hn' Hf'|m' Hn' Hz' Hm'];
    try congruence; try (split; congruence).
  split; [done|]. by eapply first_min_unique.
Qed.

Lemma stamps_same_order s b E pre st st' idx lines lines' :
  geometry_ok s b E →
  reachable s b E pre st → reachable s b E (data_lines pre) st' →
  Z.of_nat (length pre) < ULL_MOD →
  st.1 !! idx = Some lines → st'.1 !! idx = Some lines' →
  Forall2 alike lines lines' →
  list_find (λ l, lru l = 0) lines = None →
  ∀ i j li lj li' lj',
    lines !! i = Some li → lines !! j = Some lj →
    lines' !! i = Some li' → lines' !! j = Some lj' →
    lru li < lru lj ↔ lru li' < lru lj'.
Proof.
  intros Hgeom Hreach Hreach' Hlen Hset Hset' Hall Hnofree.
  pose proof (Forall_lookup_1 _ _ _ _
    (reachable_lines_free_or_valid _ _ _ _ _ Hreach) Hset) as Hfv.
  pose proof (data_lines_length pre) as Hshort.
  rewrite list_find_None, Forall_lookup in Hnofree.
  assert (∀ n l l', lines !! n = Some l → lines' !! n = Some l' →
            lru l = Z.of_nat (last_use s b (tag l, Z.of_nat idx) pre) ∧
            lru l' = Z.of_nat (last_use s b (tag l, Z.of_nat idx)
                                 (data_lines pre))) as Hstamp.
  { intros n l l' Hn Hn'.
    destruct (Forall2_lookup_lr _ _ _ _ _ _ Hall Hn Hn') as (Hv & Ht & _).
    assert (valid_bit l = 1) as Hvalid.
    { destruct (Forall_lookup_1 _ _ _ _ Hfv Hn) as [?|[_ ?]]; [done|].
      by destruct (Hnofree _ _ Hn). }
    split.
    - by eapply (reachable_stamps s b E pre st).
    - rewrite Ht.
      eapply (reachable_stamps s b E (data_lines pre) st'); try done;
        [lia|congruence]. }
  intros i j li lj li' lj' Hi Hj Hi' Hj'.
  destruct (Hstamp _ _ _ Hi Hi') as [-> ->].
  destruct (Hstamp _ _ _ Hj Hj') as [-> ->].
  pose proof (last_use_data_order s b (tag li, Z.of_nat idx)
                (tag lj, Z.of_nat idx) pre). lia.
Qed.

Lemma data_lines_simulation s b E trace pre st st' :
  geometry_ok s b E →
  reachable s b E pre st → reachable s b E (data_lines pre) st' →
  same_blocks st st' →
  Z.of_nat (length (pre ++ trace)) < ULL_MOD →
  ∃ st1 st1',
    read_file s b trace st = Some st1 ∧
    read_file s b (data_lines trace) st' = Some st1' ∧
    same_blocks st1 st1'.
Proof.
  intros Hgeom. revert pre st st'.
  induction trace as [|r trace IH]; intros pre st st' Hreach Hreach' Hsame Hlen.
  { by exists st, st'. }
  pose proof (reachable_wf _ _ _ _ _ Hgeom Hreach) as Hwf.
  pose proof (reachable_wf _ _ _ _ _ Hgeom Hreach') as Hwf'.
  destruct (process_line_step s b E Hgeom st r Hwf) as (st1 & Heq & Hst).
  assert (reachable s b E (pre ++ [r]) st1) as Hreach1
    by (by eapply reach_step).
  rewrite length_app in Hlen. simpl in Hlen.
  assert (Z.of_nat (length ((pre ++ [r]) ++ trace)) < ULL_MOD) as Hlen1.
  { rewrite !length_app. simpl. lia. }
  simpl. rewrite Heq. simpl.
  destruct (is_data (instruct r)) eqn:Hdata.
  - destruct (process_line_step s b E Hgeom st' r Hwf')
      as (st1' & Heq' & Hst').
    simpl. rewrite Heq'. simpl.
    apply (IH (pre ++ [r])); [done| |  |done].
    { rewrite data_lines_app. simpl. rewrite Hdata.
      by eapply reach_step. }
    destruct Hst as [? ? _ ?|t idx lines k i Hdec _ Hset Hacc];
      [congruence|].
    destruct Hst' as [? ? _ ?|t' idx' lines' k' i' Hdec' _ Hset' Hacc'];
      [congruence|].
    assert (t' = t ∧ idx' = idx) as [-> ->] by (split; congruence).
    destruct Hsame as (Hh & Hm & He & Hall).
    pose proof (Forall2_lookup_lr _ _ _ _ _ _ Hall Hset Hset') as Hlines.
    assert (accessed t lines' k i) as Hacc2.
    { eapply accessed_alike; [done| |done].
      intros Hnofree m. apply first_min_alike; [done|].
      eapply (stamps_same_order s b E pre st st'); try done. lia. }
    destruct (accessed_functional _ _ _ _ _ _ Hacc' Hacc2) as [-> ->].
    pose proof (reachable_timer _ _ _ _ _ Hreach) as Htimer.
    pose proof (reachable_timer _ _ _ _ _ Hreach') as Htimer'.
    pose proof (data_lines_length pre) as Hshort.
    rewrite Z.mod_small in Htimer, Htimer' by lia.
    split_and!; simpl; unfold modify_credit.
    + destruct (Ascii.eqb (instruct r) "M"), k; simpl; lia.
    + destruct (Ascii.eqb (instruct r) "M"), k; simpl; lia.
    + destruct (Ascii.eqb (instruct r) "M"), k; simpl; lia.
    + apply Forall2_insert; [done|]. apply Forall2_insert; [done|].
      split; [done|]. split; [done|]. simpl.
      rewrite Htimer, Htimer'. unfold ull_incr.
      rewrite !Z.mod_small by lia. lia.
  - apply (IH (pre ++ [r])); [done| | |done].
    { rewrite data_lines_app. simpl. by rewrite Hdata, app_nil_r. }
    destruct Hst as [? ? _ _|? ? ? ? ? _ ? _ _]; [|congruence].
    destruct Hsame as (Hh & Hm & He & Hall). by split_and!.
Qed.

(** Short of 2^64 lines, the trace without its instruction lines (and any
    other line that is not a load, store or modify) gives the same hits,
    misses and evictions, and the same blocks in the same slots. *)
Theorem instruction_lines_do_not_matter (s b E : Z) (trace : list trace_line) :
  geometry_ok s b E → Z.of_nat (length trace) < 2 ^ 64 →
  ∃ st st',
    read_file s b trace (init_state (2 ^ s) E) = Some st ∧
    read_file s b (data_lines trace) (init_state (2 ^ s) E) = Some st' ∧
    hit_count st.2 = hit_count st'.2 ∧
    miss_count st.2 = miss_count st'.2 ∧
    eviction_count st.2 = eviction_count st'.2 ∧
    Forall2 (Forall2 alike) st.1 st'.1.
Proof.
  intros Hgeom Hlen.
  destruct (data_lines_simulation s b E trace []
              (init_state (2 ^ s) E) (init_state (2 ^ s) E))
    as (st & st' & Hrun & Hrun' & Hsame); [done|constructor..| |done|].
  { split_and!; try done.
    apply Forall_Forall2_diag, Forall_forall. intros lines _.
    apply Forall_Forall2_diag, Forall_forall. by intros l _. }
  by exists st, st'.
Qed.

Lemma instruction_lines_do_not_matter_witness :
  ∃ st st',
    read_file 1 1 [I 0; L 0; I 4; L 8; I 8; M 0; L 16]
      (init_state (2 ^ 1) 1) = Some st ∧
    read_file 1 1 (data_lines [I 0; L 0; I 4; L 8; I 8; M 0; L 16])
      (init_state (2 ^ 1) 1) = Some st' ∧
    hit_count st.2 = hit_count st'.2 ∧
    miss_count st.2 = miss_count st'.2 ∧
    eviction_count st.2 = eviction_count st'.2 ∧
    Forall2 (Forall2 alike) st.1 st'.1.
Proof.
  apply (instruction_lines_do_not_matter 1 1 1).
  - unfold geometry_ok. lia.
  - simpl. lia.
Defined.

(** * Runs with [int] counters *)

Lemma fits_int_true g :
  hit_count g <= INT_MAX → miss_count g <= INT_MAX →
  eviction_count g <= INT_MAX → fits_int g = true.
Proof. intros. unfold fits_int. by rewrite !andb_true_intro by lia. Qed.

Lemma fits_int_bounds g :
  fits_int g = true →
  hit_count g <= INT_MAX ∧ miss_count g <= INT_MAX ∧
  eviction_count g <= INT_MAX.
Proof. unfold fits_int. rewrite !andb_true_iff. lia. Qed.

Lemma process_line_int_Some s b st r st' :
  process_line s b st r = Some st' → fits_int st'.2 = true →
  process_line_int s b st r = Some st'.
Proof. intros Heq Hfit. unfold process_line_int. rewrite Heq. simpl. by rewrite Hfit. Qed.

Lemma process_line_int_None s b st r st' :
  process_line s b st r = Some st' → fits_int st'.2 = false →
  process_line_int s b st r = None.
Proof. intros Heq Hfit. unfold process_line_int. rewrite Heq. simpl. by rewrite Hfit. Qed.

Lemma process_line_int_inv s b st r st' :
  process_line_int s b st r = Some st' →
  process_line s b st r = Some st' ∧ fits_int st'.2 = true.
Proof.
  unfold process_line_int.
  destruct (process_line s b st r) as [st1|]; simpl; [|done].
  destruct (fits_int st1.2) eqn:Hfit; [|done]. by intros [= <-].
Qed.

Lemma read_file_int_app s b trace1 trace2 st :
  read_file_int s b (trace1 ++ trace2) st =
    read_file_int s b trace1 st ≫= read_file_int s b trace2.
Proof.
  revert st. induction trace1 as [|r trace1 IH]; intros st; [done|].
  simpl. destruct (process_line_int s b st r) as [st'|]; [apply IH|done].
Qed.

(** A run with [int] counters that is defined is the run that counts. *)
Lemma read_file_int_counts s b trace st st' :
  read_file_int s b trace st = Some st' →
  read_file s b trace st = Some st'.
Proof.
  revert st. induction trace as [|r trace IH]; intros st; [done|].
  simpl. destruct (process_line_int s b st r) as [st1|] eqn:Hline; [|done].
  apply process_line_int_inv in Hline as [-> _]. simpl. apply IH.
Qed.

(** While the counts leave room for two hits, a miss and an eviction per
    line, no increment overflows. *)
Lemma read_file_int_short s b E trace st :
  geometry_ok s b E → wf_cache s E st.1 →
  hit_count st.2 + 2 * Z.of_nat (length trace) <= INT_MAX →
  miss_count st.2 + Z.of_nat (length trace) <= INT_MAX →
  eviction_count st.2 + Z.of_nat (length trace) <= INT_MAX →
  read_file_int s b trace st = read_file s b trace st.
Proof.
  intros Hgeom. revert st.
  induction trace as [|r trace IH]; intros st Hwf Hh Hm He; [done|].
  simpl in Hh, Hm, He.
  destruct (process_line_step s b E Hgeom st r Hwf) as (st1 & Heq & Hst).
  pose proof (step_monotone _ _ _ _ _ Hst) as (Hh1 & Hm1 & He1).
  simpl. rewrite (process_line_int_Some _ _ _ _ _ Heq), Heq.
  - simpl. apply IH; [by apply (step_wf s b E st r st1)|lia..].
  - apply fits_int_true; lia.
Qed.

Lemma read_file_int_init s b E trace :
  geometry_ok s b E → 2 * Z.of_nat (length trace) <= INT_MAX →
  read_file_int s b trace (init_state (2 ^ s) E) =
    read_file s b trace (init_state (2 ^ s) E).
Proof.
  intros Hgeom Hlen.
  apply (read_file_int_short s b E); simpl; [done| |lia..].
  by apply (make_cache_wf s b E).
Qed.

(** ** A storm of modifies overflows [hit_count] *)

Lemma modify_again t h :
  h + 2 <= INT_MAX →
  process_line_int 1 1
    ([[CacheLine 1 t 0]; [CacheLine 0 0 0]], Globals 1 h 0 t) (M 0) =
  Some ([[CacheLine 1 (ull_incr t) 0]; [CacheLine 0 0 0]],
        Globals 1 (h + 2) 0 (ull_incr t)).
Proof.
  intros Hh.
  assert (process_line 1 1
            ([[CacheLine 1 t 0]; [CacheLine 0 0 0]], Globals 1 h 0 t) (M 0) =
          Some ([[CacheLine 1 (ull_incr t) 0]; [CacheLine 0 0 0]],
                Globals 1 (h + 1 + 1) 0 (ull_incr t))) as Heq
    by reflexivity.
  rewrite (process_line_int_Some _ _ _ _ _ Heq).
  - do 3 f_equal. lia.
  - apply fits_int_true; simpl; unfold INT_MAX in *; lia.
Qed.

Lemma modify_storm_run (n : nat) t h :
  h + 2 * Z.of_nat n <= INT_MAX →
  read_file_int 1 1 (replicate n (M 0))
    ([[CacheLine 1 t 0]; [CacheLine 0 0 0]], Globals 1 h 0 t) =
  Some ([[CacheLine 1 (Nat.iter n ull_incr t) 0]; [CacheLine 0 0 0]],
        Globals 1 (h + 2 * Z.of_nat n) 0 (Nat.iter n ull_incr t)).
Proof.
  revert t h. induction n as [|n IH]; intros t h Hh.
  { simpl. by rewrite Z.add_0_r. }
  cbn [replicate read_file_int].
  rewrite modify_again by lia. cbn [mbind option_bind].
  rewrite IH by lia. rewrite Nat.iter_succ_r. do 3 f_equal. lia.
Qed.

(** C2 (as stated) fails: the 2^30 modifies of [modify_storm] leave
    [hit_count] at [INT_MAX], and the first [hit_count++] of one more
    modify is undefined: after these 2^30 + 1 lines there are no final
    counters. *)
Lemma hits_overflow :
  Z.of_nat (length (modify_storm ++ [M 0])) = 2 ^ 30 + 1 ∧
  (∃ st, read_file_int 1 1 modify_storm (init_state (2 ^ 1) 1) = Some st ∧
         hit_count st.2 = INT_MAX ∧ miss_count st.2 = 1) ∧
  read_file_int 1 1 (modify_storm ++ [M 0]) (init_state (2 ^ 1) 1) = None.
Proof.
  assert (Z.of_nat storm_gap = 2 ^ 30 - 1) as Hgap.
  { unfold storm_gap. apply Z2Nat.id. lia. }
  unfold modify_storm. revert Hgap. generalize storm_gap. intros n Hn.
  assert (read_file_int 1 1 ([M 0] ++ replicate n (M 0))
            (init_state (2 ^ 1) 1) =
          Some ([[CacheLine 1 (Nat.iter n ull_incr 1) 0]; [CacheLine 0 0 0]],
                Globals 1 INT_MAX 0 (Nat.iter n ull_incr 1))) as Hrun.
  { rewrite read_file_int_app.
    assert (read_file_int 1 1 [M 0] (init_state (2 ^ 1) 1) =
            Some ([[CacheLine 1 1 0]; [CacheLine 0 0 0]], Globals 1 1 0 1))
      as -> by reflexivity.
    cbn [mbind option_bind].
    rewrite modify_storm_run by (unfold INT_MAX; lia).
    do 3 f_equal. unfold INT_MAX. lia. }
  split; [|split].
  - rewrite !length_app, length_replicate. simpl. lia.
  - eexists. split; [exact Hrun|done].
  - rewrite read_file_int_app, Hrun. cbn [mbind option_bind read_file_int].
    generalize (Nat.iter n ull_incr 1). intros t.
    assert (process_line 1 1
              ([[CacheLine 1 t 0]; [CacheLine 0 0 0]],
               Globals 1 INT_MAX 0 t) (M 0) =
            Some ([[CacheLine 1 (ull_incr t) 0]; [CacheLine 0 0 0]],
                  Globals 1 (INT_MAX + 1 + 1) 0 (ull_incr t))) as Heq
      by reflexivity.
    by rewrite (process_line_int_None _ _ _ _ _ Heq).
Qed.

(** ** Thrashing one line overflows [miss_count] *)

Lemma thrash_load t t0 tg a m h e :
  decode 1 1 a = Some (tg, 0) → t0 ≠ tg → 0 < t → t + 1 < ULL_MOD →
  process_line 1 1
    ([[CacheLine 1 t t0]; [CacheLine 0 0 0]], Globals m h e t) (L a) =
  Some ([[CacheLine 1 (t + 1) tg]; [CacheLine 0 0 0]],
        Globals (m + 1) h (e + 1) (t + 1)).
Proof.
  intros Hdec Htag Ht Hwrap.
  unfold process_line, first_part, first_lookup. simpl address.
  rewrite Hdec. cbn [mbind option_bind]. simpl.
  unfold data_access. simpl.
  destruct (Z.eqb_spec tg t0) as [->|_]; [done|]. simpl.
  destruct (Z.eqb_spec t 0) as [->|_]; [lia|]. simpl.
  unfold install, incr_eviction, incr_miss, tick, ull_incr. simpl.
  by rewrite Z.mod_small by lia.
Qed.

Lemma thrash_pair t m e :
  0 < t → t + 2 < ULL_MOD → m + 2 <= INT_MAX → e <= m →
  read_file_int 1 1 [L 8; L 0]
    ([[CacheLine 1 t 0]; [CacheLine 0 0 0]], Globals m 0 e t) =
  Some ([[CacheLine 1 (t + 2) 0]; [CacheLine 0 0 0]],
        Globals (m + 2) 0 (e + 2) (t + 2)).
Proof.
  intros Ht Hwrap Hm He. cbn [read_file_int].
  assert (0 ≠ 2) as H02 by done. assert (2 ≠ 0) as H20 by done.
  assert (t + 1 < ULL_MOD) as Hw1 by lia.
  assert (0 < t + 1) as Ht1 by lia.
  assert (t + 1 + 1 < ULL_MOD) as Hw2 by lia.
  rewrite (process_line_int_Some _ _ _ _ _
             (thrash_load t 0 2 8 m 0 e eq_refl H02 Ht Hw1))
    by (apply fits_int_true; simpl; unfold INT_MAX in *; lia).
  cbn [mbind option_bind].
  rewrite (process_line_int_Some _ _ _ _ _
             (thrash_load (t + 1) 2 0 0 (m + 1) 0 (e + 1) eq_refl
                H20 Ht1 Hw2))
    by (apply fits_int_true; simpl; unfold INT_MAX in *; lia).
  cbn [mbind option_bind]. by rewrite <- !Z.add_assoc.
Qed.

Lemma thrash_run (k : nat) t m e :
  0 < t → t + 2 * Z.of_nat k < ULL_MOD →
  m + 2 * Z.of_nat k <= INT_MAX → e <= m →
  read_file_int 1 1 (concat (replicate k [L 8; L 0]))
    ([[CacheLine 1 t 0]; [CacheLine 0 0 0]], Globals m 0 e t) =
  Some ([[CacheLine 1 (t + 2 * Z.of_nat k) 0]; [CacheLine 0 0 0]],
        Globals (m + 2 * Z.of_nat k) 0 (e + 2 * Z.of_nat k)
                (t + 2 * Z.of_nat k)).
Proof.
  revert t m e. induction k as [|k IH]; intros t m e Ht Hwrap Hm He.
  { simpl. by rewrite !Z.add_0_r. }
  cbn [replicate concat]. rewrite read_file_int_app.
  rewrite thrash_pair by lia. cbn [mbind option_bind].
  rewrite IH by lia.
  replace (t + 2 + 2 * Z.of_nat k) with (t + 2 * Z.of_nat (S k)) by lia.
  replace (m + 2 + 2 * Z.of_nat k) with (m + 2 * Z.of_nat (S k)) by lia.
  by replace (e + 2 + 2 * Z.of_nat k) with (e + 2 * Z.of_nat (S k)) by lia.
Qed.

(** C7 (as stated) fails: the 2^31 - 1 loads of [thrash] are all misses
    and leave [miss_count] at [INT_MAX] with [eviction_count] one below;
    the [miss_count++] of one more such load is undefined, so after that
    prefix of 2^31 lines there are no counters to compare. *)
Lemma misses_overflow :
  Z.of_nat (length (thrash ++ [L 8])) = 2 ^ 31 ∧
  (∃ st, read_file_int 1 1 thrash (init_state (2 ^ 1) 1) = Some st ∧
         miss_count st.2 = INT_MAX ∧ eviction_count st.2 = INT_MAX - 1) ∧
  read_file_int 1 1 (thrash ++ [L 8]) (init_state (2 ^ 1) 1) = None.
Proof.
  assert (Z.of_nat thrash_pairs = 2 ^ 30 - 1) as Hpairs.
  { unfold thrash_pairs. apply Z2Nat.id. lia. }
  unfold thrash. revert Hpairs. generalize thrash_pairs. intros k Hk.
  assert (read_file_int 1 1 ([L 0] ++ concat (replicate k [L 8; L 0]))
            (init_state (2 ^ 1) 1) =
          Some ([[CacheLine 1 INT_MAX 0]; [CacheLine 0 0 0]],
                Globals INT_MAX 0 (INT_MAX - 1) INT_MAX)) as Hrun.
  { rewrite read_file_int_app.
    assert (read_file_int 1 1 [L 0] (init_state (2 ^ 1) 1) =
            Some ([[CacheLine 1 1 0]; [CacheLine 0 0 0]], Globals 1 0 0 1))
      as -> by reflexivity.
    cbn [mbind option_bind].
    rewrite thrash_run by (unfold INT_MAX, ULL_MOD; lia).
    rewrite Hk. reflexivity. }
  split; [|split].
  - rewrite !length_app. simpl.
    assert (∀ n, length (concat (replicate n [L 8; L 0])) = (2 * n)%nat)
      as ->.
    { induction n as [|n IHn]; simpl; [done|]. rewrite IHn. lia. }
    lia.
  - eexists. split; [exact Hrun|done].
  - rewrite read_file_int_app, Hrun. cbn [mbind option_bind read_file_int].
    assert (0 ≠ 2) as H02 by done.
    assert (0 < INT_MAX) as Hpos by done.
    assert (INT_MAX + 1 < ULL_MOD) as Hwrap by done.
    by rewrite (process_line_int_None _ _ _ _ _
                  (thrash_load INT_MAX 0 2 8 INT_MAX 0 (INT_MAX - 1) eq_refl
                     H02 Hpos Hwrap)).
Qed.

(** ** The counters of a run that overflows nothing *)

(** C2 (as amended): on every trace whose run from the initial cache
    overflows no counter, and so on every trace of less than 2^30 lines,
    [hits + misses] is the number of loads plus the number of stores plus
    twice the number of modifies; a load or store is one hit or one miss,
    and a modify is that plus the hit of its second lookup. *)
Theorem hits_plus_misses_int (s b E : Z) (trace : list trace_line) :
  geometry_ok s b E →
  (∀ st, read_file_int s b trace (init_state (2 ^ s) E) = Some st →
     hit_count st.2 + miss_count st.2 =
       count_instruct "L" trace + count_instruct "S" trace
       + 2 * count_instruct "M" trace) ∧
  (2 * Z.of_nat (length trace) <= INT_MAX →
   ∃ st, read_file_int s b trace (init_state (2 ^ s) E) = Some st) ∧
  (∀ st r, wf_cache s E st.1 → is_data (instruct r) = true →
     hit_count st.2 + 2 <= INT_MAX → miss_count st.2 + 1 <= INT_MAX →
     eviction_count st.2 + 1 <= INT_MAX →
     ∃ st', process_line_int s b st r = Some st' ∧
       let second := if Ascii.eqb (instruct r) "M" then 1 else 0 in
       (hit_count st'.2 = hit_count st.2 + 1 + second ∧
          miss_count st'.2 = miss_count st.2
        ∨ hit_count st'.2 = hit_count st.2 + second ∧
          miss_count st'.2 = miss_count st.2 + 1)).
Proof.
  intros Hgeom.
  pose proof (make_cache_wf s b E Hgeom) as Hwf0. split; [|split].
  - intros st Hrun%read_file_int_counts.
    destruct (read_file_lookups s b E Hgeom trace (init_state (2 ^ s) E))
      as (st0 & Hrun0 & Hsum); [done|].
    assert (st0 = st) as -> by congruence.
    rewrite Hsum, lookups_count. simpl. lia.
  - intros Hlen. rewrite (read_file_int_init s b E) by done.
    destruct (read_file_lookups s b E Hgeom trace (init_state (2 ^ s) E))
      as (st0 & Hrun0 & _); [done|]. by exists st0.
  - intros st r Hwf Hdata Hh Hm He.
    destruct (process_line_step s b E Hgeom st r Hwf) as (st' & Heq & Hst).
    pose proof (step_monotone _ _ _ _ _ Hst) as (Hh1 & Hm1 & He1).
    exists st'. split; [|by eapply step_hit_or_miss].
    apply process_line_int_Some; [done|]. apply fits_int_true; lia.
Qed.

Lemma hits_plus_misses_int_witness :
  ∃ st, read_file_int 1 1 [L 0; M 4; I 0; St 8; M 0] (init_state (2 ^ 1) 1)
          = Some st ∧
    hit_count st.2 + miss_count st.2 = 1 + 1 + 2 * 2.
Proof.
  destruct (hits_plus_misses_int 1 1 1 [L 0; M 4; I 0; St 8; M 0])
    as (Hsum & Hrun & _).
  { unfold geometry_ok. lia. }
  destruct Hrun as [st Hrun]; [simpl; unfold INT_MAX; lia|].
  exists st. split; [exact Hrun|]. exact (Hsum st Hrun).
Defined.

(** C7 (as amended): after every prefix of a trace whose run overflows no
    counter, and so after every prefix of a trace of less than 2^30
    lines, [evictions <= misses]; a line that increments [eviction_count]
    increments [miss_count] too. *)
Theorem evictions_le_misses_int (s b E : Z) (trace : list trace_line)
    (n : nat) :
  geometry_ok s b E →
  (∀ st, read_file_int s b (take n trace) (init_state (2 ^ s) E) = Some st →
     eviction_count st.2 <= miss_count st.2) ∧
  (2 * Z.of_nat (length trace) <= INT_MAX →
   ∃ st, read_file_int s b (take n trace) (init_state (2 ^ s) E) = Some st) ∧
  (∀ st r st', wf_cache s E st.1 →
     process_line_int s b st r = Some st' →
     eviction_count st'.2 = eviction_count st.2 ∧
       miss_count st.2 <= miss_count st'.2
     ∨ eviction_count st'.2 = eviction_count st.2 + 1 ∧
       miss_count st'.2 = miss_count st.2 + 1).
Proof.
  intros Hgeom.
  pose proof (make_cache_wf s b E Hgeom) as Hwf0.
  destruct (read_file_invariant s b E Hgeom
              (λ st, eviction_count st.2 <= miss_count st.2))
    with (trace := take n trace) (st := init_state (2 ^ s) E)
    as (st0 & Hrun0 & _ & Hle); [|done..|].
  { intros st r st' _ Hle (_ & Hev & _)%step_counters. lia. }
  split; [|split].
  - intros st Hrun%read_file_int_counts. congruence.
  - intros Hlen. rewrite (read_file_int_init s b E); [by exists st0|done|].
    rewrite length_take. lia.
  - intros st r st' Hwf [Heq _]%process_line_int_inv.
    destruct (process_line_step s b E Hgeom st r Hwf) as (st1 & Heq1 & Hst).
    assert (st1 = st') as -> by congruence.
    by apply step_counters in Hst as (_ & ? & _).
Qed.

Lemma evictions_le_misses_int_witness :
  ∃ st, read_file_int 1 1 (take 3 [L 0; L 8; L 16; L 0])
          (init_state (2 ^ 1) 1) = Some st ∧
    eviction_count st.2 <= miss_count st.2.
Proof.
  destruct (evictions_le_misses_int 1 1 1 [L 0; L 8; L 16; L 0] 3)
    as (Hle & Hrun & _).
  { unfold geometry_ok. lia. }
  destruct Hrun as [st Hrun]; [simpl; unfold INT_MAX; lia|].
  exists st. split; [exact Hrun|]. exact (Hle st Hrun).
Defined.

(** On a trace of less than 2^30 lines no [++] overflows its [int]: the run
    with [int] counters is defined, and after [n] lines the counters are
    between 0 and [2 * n] hits, [n] misses and [n] evictions. *)
Theorem no_counter_overflow (s b E : Z) (trace : list trace_line) :
  geometry_ok s b E → 2 * Z.of_nat (length trace) <= INT_MAX →
  ∃ st, read_file_int s b trace (init_state (2 ^ s) E) = Some st ∧
    0 <= hit_count st.2 <= 2 * Z.of_nat (length trace) ∧
    0 <= miss_count st.2 <= Z.of_nat (length trace) ∧
    0 <= eviction_count st.2 <= Z.of_nat (length trace).
Proof.
  intros Hgeom Hlen. rewrite (read_file_int_init s b E) by done.
  destruct (read_file_ind_steps s b E Hgeom
    (λ n st, 0 <= hit_count st.2 <= 2 * Z.of_nat n ∧
             0 <= miss_count st.2 <= Z.of_nat n ∧
             0 <= eviction_count st.2 <= Z.of_nat n))
    with (trace := trace) (n := 0%nat) (st := init_state (2 ^ s) E)
    as (st & Hrun & _ & HP).
  - intros n st r st' _ HP Hst. apply step_monotone in Hst. lia.
  - by apply (make_cache_wf s b E).
  - simpl. lia.
  - by exists st.
Qed.

Lemma no_counter_overflow_witness :
  ∃ st, read_file_int 1 1 [M 0; M 0; L 8; I 0] (init_state (2 ^ 1) 1)
          = Some st ∧
    0 <= hit_count st.2 <= 2 * Z.of_nat 4 ∧
    0 <= miss_count st.2 <= Z.of_nat 4 ∧
    0 <= eviction_count st.2 <= Z.of_nat 4.
Proof.
  apply (no_counter_overflow 1 1 1 [M 0; M 0; L 8; I 0]).
  - unfold geometry_ok. lia.
  - simpl. unfold INT_MAX. lia.
Defined.

(** On a trace of less than 2^30 lines, [misses - evictions] is the number
    of valid lines, at most the [2^s * E] lines of the cache. *)
Theorem misses_minus_evictions_int (s b E : Z) (trace : list trace_line) :
  geometry_ok s b E → 2 * Z.of_nat (length trace) <= INT_MAX →
  ∃ st, read_file_int s b trace (init_state (2 ^ s) E) = Some st ∧
    miss_count st.2 - eviction_count st.2 = valid_in_cache st.1 ∧
    0 <= miss_count st.2 - eviction_count st.2 <= 2 ^ s * E.
Proof.
  intros Hgeom Hlen. rewrite (read_file_int_init s b E) by done.
  assert (Z.of_nat (length trace) < ULL_MOD) as Hshort.
  { unfold INT_MAX, ULL_MOD in *. lia. }
  destruct (read_file_from_reachable s b E [] (init_state (2 ^ s) E) trace)
    as (st & Hrun & Hreach); [done|constructor|].
  simpl in Hreach. exists st. split; [done|].
  pose proof (reachable_valid_lines _ _ _ _ _ Hreach Hshort) as Hcount.
  pose proof (reachable_wf _ _ _ _ _ Hgeom Hreach) as [Hsets Hlines].
  destruct Hgeom as (Hs & _ & _ & HE).
  pose proof (valid_in_cache_bound st.1 E ltac:(lia) Hlines) as Hbound.
  rewrite Hsets, Z2Nat.id in Hbound by lia. lia.
Qed.

Lemma misses_minus_evictions_int_witness :
  ∃ st, read_file_int 1 1 [L 0; L 8; L 16; M 2; L 0] (init_state (2 ^ 1) 1)
          = Some st ∧
    miss_count st.2 - eviction_count st.2 = valid_in_cache st.1 ∧
    0 <= miss_count st.2 - eviction_count st.2 <= 2 ^ 1 * 1.
Proof.
  apply (misses_minus_evictions_int 1 1 1 [L 0; L 8; L 16; M 2; L 0]).
  - unfold geometry_ok. lia.
  - simpl. unfold INT_MAX. lia.
Defined.
